(** * The k-mer counter of "Learning Go: CPU Profiling", round 4

    A shallow embedding of the Go program of round 4 of the post (the version
    with the hand-written hash counter): the symbol replacer [toNum], the key
    packer [encode], the hash function [hash], the chained table
    [hashCounter] with its two methods [get] and [inc], and the scanner
    [count].

    Conventions of the embedding:
    - Go's [uint64] is a [Z] in [0, 2^64); operations that can leave the
      range are wrapped with [uint64_wrap].
    - Go's [int] is the 64-bit signed integer of the platforms the post
      measures on: a [Z] in [-2^63, 2^63), wrapped with [int_wrap].
    - [[]byte] is [list byte].
    - a run-time panic (index out of range, slice bounds out of range) is the
      [Panic] constructor of [result]. *)

From Stdlib Require Import ZArith List Lia.
From Stdlib.Strings Require Import Byte.
From stdpp Require Import gmap strings.
Import ListNotations.
Local Open Scope Z_scope.

(** ** Run-time panics *)

Inductive panic : Type :=
| IndexOutOfRange (index : Z)
| SliceBoundsOutOfRange (low high : Z).

Inductive result (A : Type) : Type :=
| Ok (a : A)
| Panic (p : panic).
Arguments Ok {A} a.
Arguments Panic {A} p.

#[global] Instance result_ret : MRet result := fun A a => Ok a.
#[global] Instance result_bind : MBind result := fun A B f m =>
  match m with
  | Ok a => f a
  | Panic p => Panic p
  end.

(** ** Machine integers *)

Module GoInt.

(** Truncation to [uint64]. *)
Definition uint64_wrap (z : Z) : Z := z mod 2 ^ 64.

(** Truncation to the signed 64-bit [int]. *)
Definition int_wrap (z : Z) : Z := (z + 2 ^ 63) mod 2 ^ 64 - 2 ^ 63.

(** The conversion [int(key)] of a [uint64]: same bits, read as signed. *)
Definition int_of_uint64 (key : Z) : Z := int_wrap key.

(** The conversion [uint64(char)] of a byte. *)
Definition uint64_of_byte (char : byte) : Z := Z.of_N (Byte.to_N char).

(** [x << n] on [uint64]. *)
Definition shl64 (x n : Z) : Z := uint64_wrap (Z.shiftl x n).

(** [len(s)] as an [int]. *)
Definition len {A : Type} (s : list A) : Z := Z.of_nat (List.length s).

Definition is_uint64 (z : Z) : Prop := 0 <= z < 2 ^ 64.
Definition is_int (z : Z) : Prop := - 2 ^ 63 <= z < 2 ^ 63.

End GoInt.
Export GoInt.

(** Range side conditions on machine integers. *)
Ltac int_range := unfold is_int, is_uint64, len in *; lia.

(** A byte string, written as a string literal. *)
Definition bytes (s : String.string) : list byte :=
  String.list_byte_of_string s.
Arguments bytes s%_string.

#[global] Instance byte_eq_dec : EqDecision byte := Byte.byte_eq_dec.

(** ** The symbol replacer

    [strings.NewReplacer("A", string(0), "C", string(1), "G", string(2),
    "T", string(3))]: every old and new string is a single byte, so
    [Replace] maps the input byte by byte, and a byte that is none of the
    four old strings is copied as it is. *)

Definition toNum_byte (b : byte) : byte :=
  match b with
  | "A"%byte => x00
  | "C"%byte => x01
  | "G"%byte => x02
  | "T"%byte => x03
  | other => other
  end.

Module toNum.
Definition Replace (s : list byte) : list byte := map toNum_byte s.
End toNum.

(** [read]: the lines of standard input (the scanner has already split them
    and dropped the line ends), each one replaced and appended to the
    buffer. *)
Definition read (stdin_lines : list (list byte)) : list byte :=
  fold_left (fun buf text => buf ++ toNum.Replace text) stdin_lines [].

(** ** The key packer *)

Definition encode (sequence : list byte) : Z :=
  fold_left (fun num char => Z.lor (shl64 num 2) (uint64_of_byte char))
            sequence 0.

(** ** The hash counter *)

Definition hashSize : Z := Z.shiftl 1 18.

(** Go's [%] truncates towards zero: it is [Z.rem], not [Z.modulo]. *)
Definition hash (key : Z) : Z := Z.rem (int_of_uint64 key) hashSize.

(** A value of type [*entry]: the nil pointer, or a pointer to a struct with
    the fields [key], [value] and [next].  Every entry is reachable from one
    bucket only, so a chain is modelled by value. *)
Inductive entry : Type :=
| null
| Entry (key : Z) (value : Z) (next : entry).

(** [entries [hashSize]*entry]: the array is kept sparse, a missing index
    holds the nil pointer of Go's zero value; the bounds check of the array
    access is [index]. *)
Record hashCounter : Type := { entries : gmap Z entry }.

(** The zero value of [hashCounter]. *)
Definition zero_hashCounter : hashCounter := {| entries := ∅ |}.

(** [hc.entries[h]], read. *)
Definition index (hc : hashCounter) (h : Z) : result entry :=
  if (0 <=? h) && (h <? hashSize)
  then Ok (default null (entries hc !! h))
  else Panic (IndexOutOfRange h).

(** [*p = e] for [p := &hc.entries[h]], once the bounds check has passed. *)
Definition store (hc : hashCounter) (h : Z) (e : entry) : hashCounter :=
  {| entries := <[h := e]> (entries hc) |}.

(** The loop of [get], from the entry [e] on. *)
Fixpoint get_loop (e : entry) (key : Z) : Z :=
  match e with
  | null => 0
  | Entry k v nx => if k =? key then v else get_loop nx key
  end.

Definition get (hc : hashCounter) (key : Z) : result Z :=
  e ← index hc (hash key);
  mret (get_loop e key).

(** The loop of [inc], from the entry [e] on: [Some] of the updated chain
    when an entry with key [k] was found (and [e.value++] done in place),
    [None] when the loop ran off the end of the chain. *)
Fixpoint inc_loop (e : entry) (k : Z) : option entry :=
  match e with
  | null => None
  | Entry k' v nx =>
      if k' =? k then Some (Entry k' (int_wrap (v + 1)) nx)
      else match inc_loop nx k with
           | Some nx' => Some (Entry k' v nx')
           | None => None
           end
  end.

Definition inc (hc : hashCounter) (k : Z) : result hashCounter :=
  let h := hash k in
  p ← index hc h;
  match inc_loop p k with
  | Some p' => mret (store hc h p')
  | None =>
      match p with
      | null => mret (store hc h (Entry k 1 null))
      | _ => mret (store hc h (Entry k 1 p))
      end
  end.

(** ** The scanner *)

(** [dna[low:high]]; the capacity of the buffer is taken to be its length. *)
Definition slice (dna : list byte) (low high : Z) : result (list byte) :=
  if (0 <=? low) && (low <=? high) && (high <=? len dna)
  then Ok (take (Z.to_nat (high - low)) (drop (Z.to_nat low) dna))
  else Panic (SliceBoundsOutOfRange low high).

(** The values [i] takes in [for i := 0; i < bound; i++]. *)
Definition loop_indices (bound : Z) : list Z :=
  map Z.of_nat (seq 0 (Z.to_nat bound)).

Definition count_body (dna : list byte) (length : Z)
    (counts : hashCounter) (i : Z) : result hashCounter :=
  w ← slice dna i (int_wrap (i + length));
  inc counts (encode w).

Fixpoint count_loop (dna : list byte) (length : Z) (indices : list Z)
    (counts : hashCounter) : result hashCounter :=
  match indices with
  | [] => Ok counts
  | i :: rest =>
      counts' ← count_body dna length counts i;
      count_loop dna length rest counts'
  end.

Definition count (dna : list byte) (length : Z) : result hashCounter :=
  count_loop dna length
    (loop_indices (int_wrap (int_wrap (len dna - length) + 1)))
    zero_hashCounter.

(** ** The main function, without the profiling and the printing *)

Definition sequence : list byte := bytes "GGTATTTTAATTTATAGT".

Definition main (stdin_lines : list (list byte)) : result Z :=
  let dna := read stdin_lines in
  counts ← count dna (len sequence);
  get counts (encode (toNum.Replace sequence)).


(** ** Notions the statements are written with *)

(** The four letters of the alphabet. *)
Definition alphabet (b : byte) : bool :=
  match b with
  | "A"%byte | "C"%byte | "G"%byte | "T"%byte => true
  | _ => false
  end.

(** A byte of the encoded buffer that is a 2-bit code. *)
Definition is_code (b : byte) : Prop := uint64_of_byte b <= 3.

#[global] Instance is_code_dec b : Decision (is_code b).
Proof. unfold is_code. apply _. Defined.

(** The ground truth of the counting: the number of starting positions of
    [s] at which [w] occurs, by brute force. *)
Fixpoint starts_with (w s : list byte) : bool :=
  match w, s with
  | [], _ => true
  | _ :: _, [] => false
  | a :: w', b :: s' => bool_decide (a = b) && starts_with w' s'
  end.

Fixpoint occurrences (w s : list byte) : Z :=
  (if starts_with w s then 1 else 0) +
  match s with
  | [] => 0
  | _ :: s' => occurrences w s'
  end.

(** The unsigned integer whose base-4 digits are the codes, the most
    significant one first: the sum of [code[j] * 4^(L-1-j)]. *)
Fixpoint base4 (codes : list byte) : Z :=
  match codes with
  | [] => 0
  | c :: rest => uint64_of_byte c * 4 ^ len rest + base4 rest
  end.

(** The window of length [L] that starts at position [i]. *)
Definition window (dna : list byte) (L i : nat) : list byte :=
  take L (drop i dna).

(** The windows [count] visits, in order. *)
Definition windows (dna : list byte) (L : nat) : list (list byte) :=
  map (window dna L) (seq 0 (S (length dna) - L)).

(** The incremental packer, following the words of the specification (the
    program has none: its scanner calls [encode] on every window).  On a
    [uint64]: shift the previous key left by 2 bits, or in the code that
    enters the window, and mask to keep exactly [2 * L] bits. *)
Definition spec_key_mask (L : nat) : Z := Z.ones (2 * Z.of_nat L).

Definition spec_next_key (L : nat) (prev : Z) (code : byte) : Z :=
  Z.land (Z.lor (shl64 prev 2) (uint64_of_byte code)) (spec_key_mask L).

Fixpoint spec_incremental_keys_from (L : nat) (prev : Z) (entering : list byte)
    : list Z :=
  match entering with
  | [] => []
  | code :: rest =>
      let key := spec_next_key L prev code in
      key :: spec_incremental_keys_from L key rest
  end.

(** The first key is folded from zero over the first [L] codes, the later
    ones come from the key before them. *)
Definition spec_incremental_keys (dna : list byte) (L : nat) : list Z :=
  if decide (L <= length dna)%nat then
    let first := fold_left (spec_next_key L) (take L dna) 0 in
    first :: spec_incremental_keys_from L first (drop L dna)
  else [].

(** The keys [count] passes to [inc], each one packed from scratch. *)
Definition naive_keys (dna : list byte) (L : nat) : list Z :=
  map encode (windows dna L).

(** A sequence of [inc] calls on one table. *)
Fixpoint inc_all (ks : list Z) (hc : hashCounter) : result hashCounter :=
  match ks with
  | [] => Ok hc
  | k :: rest => hc' ← inc hc k; inc_all rest hc'
  end.

(** The number of calls [inc(k)] in a sequence of calls. *)
Definition calls (k : Z) (ks : list Z) : Z :=
  Z.of_nat (List.length (filter (fun k' => k' = k) ks)).

(** The chain that starts at bucket [b]. *)
Definition bucket (hc : hashCounter) (b : Z) : entry :=
  default null (entries hc !! b).

(** The entries of a chain, from the head on, as (key, value) pairs. *)
Fixpoint chain (e : entry) : list (Z * Z) :=
  match e with
  | null => []
  | Entry k v nx => (k, v) :: chain nx
  end.

(** Every entry sits in the bucket its key hashes to. *)
Definition bucket_discipline (hc : hashCounter) : Prop :=
  forall b k, k ∈ (chain (bucket hc b)).*1 -> hash k = b.

(** The entry at position [n] of the chain of bucket [b], if there is one. *)
Definition entry_at (hc : hashCounter) (b : Z) (n : nat) : option (Z * Z) :=
  chain (bucket hc b) !! n.

(** What [inc] leaves in the bucket whose chain was [p]. *)
Definition inc_chain (p : entry) (k : Z) : entry :=
  match inc_loop p k with
  | Some p' => p'
  | None => Entry k 1 p
  end.

(** The invariant of a table that was built by the calls [ks]: in every
    bucket the keys of the chain are pairwise different, they are the keys
    of [ks] that hash to this bucket, and the loop of [get] finds the number
    of calls (as far as an [int] counts). *)
Definition table_inv (ks : list Z) (hc : hashCounter) : Prop :=
  forall b,
    NoDup (chain (bucket hc b)).*1 /\
    (forall k, k ∈ (chain (bucket hc b)).*1 <-> k ∈ ks /\ hash k = b) /\
    (forall k, hash k = b -> get_loop (bucket hc b) k = int_wrap (calls k ks)).

(** ** The earlier rounds of the post

    Rounds 1 to 3 count with Go's built-in map: round 1 in a
    [map[string]int], round 2 in a [map[string]*int], round 3 in a
    [map[uint64]*int] over the keys of [encode].  A Go string is the list of
    its bytes; a map is a [gmap], in which a missing key reads as the zero
    value. *)

#[global] Instance byte_countable : Countable byte :=
  inj_countable Byte.to_N Byte.of_N Byte.of_to_N.

(** The number of times [k] stands in [ks]. *)
Definition times {K : Type} `{EqDecision K} (k : K) (ks : list K) : Z :=
  Z.of_nat (List.length (filter (fun k' => k' = k) ks)).

(** [counts[key]++] on a map to [int]. *)
Definition map_incr {K : Type} `{Countable K}
    (counts : gmap K Z) (key : K) : gmap K Z :=
  <[key := int_wrap (default 0 (counts !! key) + 1)]> counts.

(** The [int] cells that [new(int)] allocates: a pointer is the index of its
    cell in the list of all cells allocated so far. *)
Definition new_int (cells : list Z) : nat * list Z :=
  (length cells, cells ++ [0]).

(** [*p], read. *)
Definition deref (cells : list Z) (p : nat) : Z := cells !!! p.

(** [*p++]. *)
Definition incr_at (cells : list Z) (p : nat) : list Z :=
  <[p := int_wrap (deref cells p + 1)]> cells.

(** The body of the loop of rounds 2 and 3, after the key is computed:
    [p, ok := counts[key]; if !ok { p = new(int); counts[key] = p }; *p++]. *)
Definition ptr_map_incr {K : Type} `{Countable K}
    (st : gmap K nat * list Z) (key : K) : gmap K nat * list Z :=
  let '(counts, cells) := st in
  match counts !! key with
  | Some p => (counts, incr_at cells p)
  | None =>
      let '(p, cells') := new_int cells in
      (<[key := p]> counts, incr_at cells' p)
  end.

(** [seqCount := 0; p, ok := counts[key]; if ok { seqCount = *p }]. *)
Definition ptr_map_get {K : Type} `{Countable K}
    (st : gmap K nat * list Z) (key : K) : Z :=
  let '(counts, cells) := st in
  match counts !! key with
  | Some p => deref cells p
  | None => 0
  end.

(** [for i := 0; i < bound; i++ { body }] over the values of [i], with a
    body that can panic. *)
Fixpoint for_each {S : Type} (body : S -> Z -> result S) (indices : list Z)
    (st : S) : result S :=
  match indices with
  | [] => Ok st
  | i :: rest => st' ← body st i; for_each body rest st'
  end.

Module Round1.

Definition read (stdin_lines : list (list byte)) : list byte :=
  fold_left (fun buf text => buf ++ text) stdin_lines [].

Definition count_body (dna : list byte) (length : Z)
    (counts : gmap (list byte) Z) (i : Z) : result (gmap (list byte) Z) :=
  key ← slice dna i (int_wrap (i + length));
  mret (map_incr counts key).

Definition count (dna : list byte) (length : Z) : result (gmap (list byte) Z) :=
  for_each (count_body dna length)
    (loop_indices (int_wrap (int_wrap (len dna - length) + 1))) ∅.

Definition main (stdin_lines : list (list byte)) : result Z :=
  let dna := read stdin_lines in
  counts ← count dna (len sequence);
  mret (default 0 (counts !! sequence)).

End Round1.

Module Round2.

Definition read (stdin_lines : list (list byte)) : list byte :=
  fold_left (fun buf text => buf ++ text) stdin_lines [].

Definition count_body (dna : list byte) (length : Z)
    (st : gmap (list byte) nat * list Z) (i : Z)
    : result (gmap (list byte) nat * list Z) :=
  key ← slice dna i (int_wrap (i + length));
  mret (ptr_map_incr st key).

(** The map that [count] returns, with the cells its pointers point to. *)
Definition count (dna : list byte) (length : Z)
    : result (gmap (list byte) nat * list Z) :=
  for_each (count_body dna length)
    (loop_indices (int_wrap (int_wrap (len dna - length) + 1))) (∅, []).

Definition main (stdin_lines : list (list byte)) : result Z :=
  let dna := read stdin_lines in
  counts ← count dna (len sequence);
  mret (ptr_map_get counts sequence).

End Round2.

(** Round 3 has the replacer, [read] and [encode] of round 4, word for
    word. *)
Module Round3.

Definition count_body (dna : list byte) (length : Z)
    (st : gmap Z nat * list Z) (i : Z) : result (gmap Z nat * list Z) :=
  w ← slice dna i (int_wrap (i + length));
  mret (ptr_map_incr st (encode w)).

Definition count (dna : list byte) (length : Z) : result (gmap Z nat * list Z) :=
  for_each (count_body dna length)
    (loop_indices (int_wrap (int_wrap (len dna - length) + 1))) (∅, []).

Definition main (stdin_lines : list (list byte)) : result Z :=
  let dna := read stdin_lines in
  counts ← count dna (len sequence);
  mret (ptr_map_get counts (encode (toNum.Replace sequence))).

End Round3.

(** What the pointers of a map show: the map from keys to the values of
    their cells. *)
Definition ptr_map_view {K : Type} `{Countable K}
    (st : gmap K nat * list Z) : gmap K Z :=
  (deref st.2) <$> st.1.

(** Every pointer of the map points to an allocated cell, no two keys
    share a cell, and there are as many cells as keys. *)
Definition ptr_map_inv {K : Type} `{Countable K}
    (st : gmap K nat * list Z) : Prop :=
  (forall k p, st.1 !! k = Some p -> (p < length st.2)%nat) /\
  (forall k1 k2 p, st.1 !! k1 = Some p -> st.1 !! k2 = Some p -> k1 = k2) /\
  length st.2 = size st.1.

(** * Properties *)

(** ** Machine integers and bytes *)

Section Integers.

Lemma int_wrap_id z : is_int z -> int_wrap z = z.
Proof.
  unfold is_int, int_wrap. intros Hz.
  rewrite Z.mod_small; lia.
Qed.

Lemma int_wrap_range z : is_int (int_wrap z).
Proof.
  unfold is_int, int_wrap.
  pose proof (Z.mod_pos_bound (z + 2 ^ 63) (2 ^ 64)). lia.
Qed.

(** Counting up through [value++] is counting up modulo [2^64]. *)
Lemma int_wrap_succ z n : int_wrap (int_wrap z + n) = int_wrap (z + n).
Proof.
  unfold int_wrap. f_equal.
  replace ((z + 2 ^ 63) mod 2 ^ 64 - 2 ^ 63 + n + 2 ^ 63)
    with ((z + 2 ^ 63) mod 2 ^ 64 + n) by lia.
  rewrite Z.add_mod_idemp_l by lia. f_equal. lia.
Qed.

Lemma uint64_wrap_range z : is_uint64 (uint64_wrap z).
Proof. unfold is_uint64, uint64_wrap. apply Z.mod_pos_bound. lia. Qed.

Lemma uint64_of_byte_range b : 0 <= uint64_of_byte b < 256.
Proof.
  unfold uint64_of_byte. pose proof (Byte.to_N_bounded b). lia.
Qed.

Lemma uint64_of_byte_inj b1 b2 :
  uint64_of_byte b1 = uint64_of_byte b2 -> b1 = b2.
Proof.
  unfold uint64_of_byte. intros H%N2Z.inj.
  pose proof (Byte.of_to_N b1) as H1.
  rewrite H, Byte.of_to_N in H1. congruence.
Qed.

Lemma len_nonneg {A} (s : list A) : 0 <= len s.
Proof. unfold len. lia. Qed.

Lemma len_cons {A} (a : A) s : len (a :: s) = len s + 1.
Proof. unfold len. cbn [List.length]. lia. Qed.

Lemma len_app {A} (s t : list A) : len (s ++ t) = len s + len t.
Proof. unfold len. rewrite length_app. lia. Qed.

(** Shifting left by 2 clears the two low bits, so or-ing a code in adds
    it. *)
Lemma shl64_lor_code x c :
  0 <= c <= 3 -> Z.lor (shl64 x 2) c = (4 * x) mod 2 ^ 64 + c.
Proof.
  intros Hc. unfold shl64, uint64_wrap.
  rewrite Z.shiftl_mul_pow2 by lia.
  replace (x * 2 ^ 2) with (4 * x) by lia.
  change (2 ^ 64) with (4 * 2 ^ 62).
  rewrite Z.mul_mod_distr_l by lia.
  set (y := x mod 2 ^ 62).
  assert (Hland : Z.land (4 * y) c = 0).
  { replace c with (Z.land c (Z.ones 2)).
    2:{ rewrite Z.land_ones by lia. apply Z.mod_small. lia. }
    rewrite (Z.land_comm c), Z.land_assoc, Z.land_ones by lia.
    replace (4 * y) with (y * 2 ^ 2) by lia.
    rewrite Z.mod_mul by lia. apply Z.land_0_l. }
  rewrite <- Z.lxor_lor by exact Hland.
  symmetry. apply Z.add_nocarry_lxor. exact Hland.
Qed.

End Integers.

(** ** The symbol replacer *)

Section Replacer.

Lemma toNum_byte_alphabet b : alphabet b = true -> is_code (toNum_byte b).
Proof. destruct b; cbn; intros H; try discriminate H; vm_compute; discriminate. Qed.


(** The replacer is one-to-one on the alphabet. *)
Lemma toNum_byte_inj a b :
  alphabet a = true -> alphabet b = true ->
  toNum_byte a = toNum_byte b -> a = b.
Proof.
  destruct a; cbn; intros Ha; try discriminate Ha;
    destruct b; cbn; intros Hb; try discriminate Hb;
    intros H; try discriminate H; reflexivity.
Qed.

Lemma Replace_codes s :
  Forall (fun b => alphabet b = true) s -> Forall is_code (toNum.Replace s).
Proof.
  unfold toNum.Replace. induction 1; constructor; auto using toNum_byte_alphabet.
Qed.

Lemma Replace_length s : length (toNum.Replace s) = length s.
Proof. apply length_map. Qed.

Lemma read_concat stdin_lines :
  read stdin_lines = concat (map toNum.Replace stdin_lines).
Proof.
  unfold read.
  enough (forall buf, fold_left (fun buf text => buf ++ toNum.Replace text) stdin_lines buf
                      = buf ++ concat (map toNum.Replace stdin_lines)) as H
      by apply (H []).
  induction stdin_lines as [|text rest IH]; intros buf; cbn.
  - now rewrite app_nil_r.
  - rewrite IH. now rewrite <- app_assoc.
Qed.

End Replacer.

(** ** The key packer *)

Section Packer.

Lemma encode_snoc l c :
  encode (l ++ [c]) = Z.lor (shl64 (encode l) 2) (uint64_of_byte c).
Proof. unfold encode. now rewrite fold_left_app. Qed.

(** The key stays a [uint64], whatever the bytes. *)
Lemma lor_uint64 x y : is_uint64 x -> is_uint64 y -> is_uint64 (Z.lor x y).
Proof.
  unfold is_uint64. intros [Hx0 Hx] [Hy0 Hy].
  assert (0 <= Z.lor x y) as H0 by now apply Z.lor_nonneg.
  split; [exact H0|].
  destruct (Z.eq_dec (Z.lor x y) 0) as [->|Hne]; [reflexivity|].
  apply Z.log2_lt_pow2; [lia|].
  rewrite Z.log2_lor by assumption.
  apply Z.max_lub_lt.
  - destruct (Z.eq_dec x 0) as [->|]; [reflexivity | apply Z.log2_lt_pow2; lia].
  - destruct (Z.eq_dec y 0) as [->|]; [reflexivity | apply Z.log2_lt_pow2; lia].
Qed.

Lemma encode_is_uint64 l : is_uint64 (encode l).
Proof.
  induction l as [|c l IH] using rev_ind; [unfold is_uint64; cbn; lia|].
  rewrite encode_snoc. apply lor_uint64; [apply uint64_wrap_range|].
  pose proof (uint64_of_byte_range c). unfold is_uint64. lia.
Qed.

Lemma base4_snoc l c : base4 (l ++ [c]) = 4 * base4 l + uint64_of_byte c.
Proof.
  induction l as [|a l IH]; cbn [base4 app].
  - change (len []) with 0. cbn. lia.
  - rewrite IH, len_app. change (len [c]) with 1.
    rewrite Z.pow_add_r by (pose proof (len_nonneg l); lia). lia.
Qed.

Lemma base4_range l : Forall is_code l -> 0 <= base4 l < 4 ^ len l.
Proof.
  induction 1 as [|c l Hc Hl IH]; cbn [base4].
  - change (len []) with 0. cbn. lia.
  - rewrite len_cons, Z.pow_add_r by (pose proof (len_nonneg l); lia).
    unfold is_code in Hc. pose proof (uint64_of_byte_range c). nia.
Qed.

(** What [encode] computes on codes, whatever their number: the base-4
    value, truncated to 64 bits. *)
Lemma encode_base4_mod l :
  Forall is_code l -> encode l = base4 l mod 2 ^ 64.
Proof.
  induction l as [|c l IH] using rev_ind; intros Hl.
  - reflexivity.
  - apply Forall_app in Hl as [Hl Hc]. apply Forall_inv in Hc.
    rewrite encode_snoc, base4_snoc, IH by exact Hl.
    unfold is_code in Hc. pose proof (uint64_of_byte_range c) as Hb.
    rewrite shl64_lor_code by lia.
    rewrite Z.mul_mod_idemp_r by lia.
    rewrite <- (Z.mod_small ((4 * base4 l) mod 2 ^ 64 + uint64_of_byte c) (2 ^ 64)).
    + now rewrite Z.add_mod_idemp_l by lia.
    + change (2 ^ 64) with (4 * 2 ^ 62).
      rewrite Z.mul_mod_distr_l by lia.
      pose proof (Z.mod_pos_bound (base4 l) (2 ^ 62)). lia.
Qed.

Lemma base4_lt_2_64 l :
  Forall is_code l -> (length l <= 32)%nat -> 0 <= base4 l < 2 ^ 64.
Proof.
  intros Hl Hlen. pose proof (base4_range l Hl) as [H0 H1]. split; [exact H0|].
  eapply Z.lt_le_trans; [exact H1|].
  change (2 ^ 64) with (4 ^ 32). apply Z.pow_le_mono_r; unfold len; lia.
Qed.

Lemma encode_base4 l :
  Forall is_code l -> (length l <= 32)%nat -> encode l = base4 l.
Proof.
  intros Hl Hlen. rewrite encode_base4_mod by exact Hl.
  apply Z.mod_small. now apply base4_lt_2_64.
Qed.

Lemma base4_inj l1 l2 :
  Forall is_code l1 -> Forall is_code l2 -> length l1 = length l2 ->
  base4 l1 = base4 l2 -> l1 = l2.
Proof.
  intros H1. revert l2.
  induction H1 as [|c1 l1 Hc1 Hl1 IH]; intros l2 H2 Hlen Heq;
    destruct H2 as [|c2 l2 Hc2 Hl2]; try discriminate Hlen; [reflexivity|].
  injection Hlen as Hlen. cbn [base4] in Heq.
  assert (len l1 = len l2) as Hl by (unfold len; lia).
  rewrite Hl in Heq.
  pose proof (base4_range l1 Hl1) as R1. rewrite Hl in R1.
  pose proof (base4_range l2 Hl2) as R2.
  pose proof (uint64_of_byte_range c1). pose proof (uint64_of_byte_range c2).
  assert (uint64_of_byte c1 = uint64_of_byte c2) as Hc by nia.
  rewrite Hc in Heq. apply uint64_of_byte_inj in Hc. subst c2.
  f_equal. apply IH; [exact Hl2 | exact Hlen | lia].
Qed.

End Packer.

(** ** The hash function *)

Section Hash.

Lemma hashSize_pow : hashSize = 2 ^ 18.
Proof. reflexivity. Qed.

(** On a key below [2^63] the conversion to [int] changes nothing and the
    remainder is the modulo. *)
Lemma hash_mod key : 0 <= key < 2 ^ 63 -> hash key = key mod hashSize.
Proof.
  intros Hk. unfold hash, int_of_uint64.
  rewrite int_wrap_id by int_range.
  apply Z.rem_mod_nonneg; [lia | reflexivity].
Qed.

Lemma hash_land key : 0 <= key < 2 ^ 63 -> hash key = Z.land key (hashSize - 1).
Proof.
  intros Hk. rewrite hash_mod by exact Hk.
  change (hashSize - 1) with (Z.ones 18). rewrite Z.land_ones by lia.
  reflexivity.
Qed.

Lemma hash_range key : 0 <= key < 2 ^ 63 -> 0 <= hash key < hashSize.
Proof.
  intros Hk. rewrite hash_mod by exact Hk.
  apply Z.mod_pos_bound. reflexivity.
Qed.

(** On a key with the top bit set the conversion to [int] is negative, and
    so is the remainder unless the low 18 bits are all zero. *)
Lemma hash_top_bit key :
  2 ^ 63 <= key < 2 ^ 64 -> hash key = - ((2 ^ 64 - key) mod hashSize).
Proof.
  intros Hk. unfold hash, int_of_uint64, int_wrap.
  replace ((key + 2 ^ 63) mod 2 ^ 64) with (key - 2 ^ 63).
  2:{ apply Z.mod_unique with (q := 1); lia. }
  replace (key - 2 ^ 63 - 2 ^ 63) with (- (2 ^ 64 - key)) by lia.
  rewrite Z.rem_opp_l by discriminate. f_equal.
  apply Z.rem_mod_nonneg; [lia | reflexivity].
Qed.

Lemma hash_top_bit_negative key :
  2 ^ 63 <= key < 2 ^ 64 -> key mod hashSize <> 0 -> hash key < 0.
Proof.
  intros Hk Hlow. rewrite hash_top_bit by exact Hk.
  pose proof (Z.mod_pos_bound (2 ^ 64 - key) hashSize eq_refl) as Hb.
  enough ((2 ^ 64 - key) mod hashSize <> 0) by lia.
  intros H0. apply Hlow.
  apply Z.mod_divide in H0; [|discriminate]. apply Z.mod_divide; [discriminate|].
  destruct H0 as [q Hq]. exists (2 ^ 46 - q).
  rewrite hashSize_pow in *. lia.
Qed.

End Hash.

(** ** Chains *)

Section Chains.

Implicit Types (e : entry) (k : Z).

Lemma get_loop_absent e k : k ∉ (chain e).*1 -> get_loop e k = 0.
Proof.
  induction e as [|k' v nx IH]; cbn; [reflexivity|].
  rewrite not_elem_of_cons. intros [Hne Hnx].
  destruct (Z.eqb_spec k' k); [congruence | auto].
Qed.

Lemma get_loop_elem e k v :
  NoDup (chain e).*1 -> (k, v) ∈ chain e -> get_loop e k = v.
Proof.
  induction e as [|k' v' nx IH]; cbn.
  - intros _ H. inversion H.
  - rewrite NoDup_cons, elem_of_cons. intros [Hk' Hnd] [Heq | Hin].
    + injection Heq as -> ->. now rewrite Z.eqb_refl.
    + destruct (Z.eqb_spec k' k) as [->|Hne]; [|auto].
      exfalso. apply Hk'. apply list_elem_of_fmap. now exists (k, v).
Qed.

Lemma inc_loop_None e k : inc_loop e k = None <-> k ∉ (chain e).*1.
Proof.
  induction e as [|k' v nx IH]; cbn.
  - split; [intros _ H; inversion H | reflexivity].
  - rewrite not_elem_of_cons.
    destruct (Z.eqb_spec k' k) as [->|Hne].
    + split; [discriminate | intros [H _]; congruence].
    + destruct (inc_loop nx k); split.
      * discriminate.
      * intros [_ H]. now apply IH in H.
      * intros _. split; [congruence | now apply IH].
      * reflexivity.
Qed.

(** When the key is found, the one entry hit is the first one with that
    key; its value goes up by one and nothing else changes. *)
Lemma inc_loop_Some e k e' :
  inc_loop e k = Some e' ->
  exists l1 v l2,
    chain e = l1 ++ (k, v) :: l2 /\ (k ∉ l1.*1) /\
    chain e' = l1 ++ (k, int_wrap (v + 1)) :: l2.
Proof.
  revert e'. induction e as [|k' v nx IH]; cbn; intros e' H; [discriminate|].
  destruct (Z.eqb_spec k' k) as [->|Hne].
  - injection H as <-. exists [], v, (chain nx). cbn.
    split; [reflexivity|]. split; [apply not_elem_of_nil | reflexivity].
  - destruct (inc_loop nx k) as [nx'|]; [|discriminate].
    injection H as <-.
    destruct (IH nx' eq_refl) as (l1 & v0 & l2 & H1 & H2 & H3).
    exists ((k', v) :: l1), v0, l2. cbn. rewrite H1, H3.
    split; [reflexivity|]. split; [|reflexivity].
    rewrite not_elem_of_cons. split; [congruence | exact H2].
Qed.

Lemma inc_chain_absent e k : k ∉ (chain e).*1 -> inc_chain e k = Entry k 1 e.
Proof. intros H%inc_loop_None. unfold inc_chain. now rewrite H. Qed.

Lemma inc_chain_keys_present e k :
  k ∈ (chain e).*1 -> (chain (inc_chain e k)).*1 = (chain e).*1.
Proof.
  intros Hin. unfold inc_chain.
  destruct (inc_loop e k) as [e'|] eqn:He.
  - destruct (inc_loop_Some _ _ _ He) as (l1 & v & l2 & H1 & _ & H3).
    rewrite H1, H3, !fmap_app. reflexivity.
  - apply inc_loop_None in He. contradiction.
Qed.

Lemma inc_chain_keys e k k' :
  k' ∈ (chain (inc_chain e k)).*1 <-> k' = k \/ k' ∈ (chain e).*1.
Proof.
  destruct (decide (k ∈ (chain e).*1)) as [Hin|Hnin].
  - rewrite inc_chain_keys_present by exact Hin.
    split; [auto | intros [->|H]; assumption].
  - rewrite inc_chain_absent by exact Hnin. cbn. apply elem_of_cons.
Qed.

Lemma inc_chain_NoDup e k :
  NoDup (chain e).*1 -> NoDup (chain (inc_chain e k)).*1.
Proof.
  intros Hnd. destruct (decide (k ∈ (chain e).*1)) as [Hin|Hnin].
  - now rewrite inc_chain_keys_present.
  - rewrite inc_chain_absent by exact Hnin. cbn. now apply NoDup_cons.
Qed.

Lemma get_loop_inc_loop e k e' k' :
  inc_loop e k = Some e' ->
  get_loop e' k' =
    if decide (k = k') then int_wrap (get_loop e k' + 1) else get_loop e k'.
Proof.
  revert e'. induction e as [|k0 v nx IH]; cbn; intros e' H; [discriminate|].
  destruct (Z.eqb_spec k0 k) as [->|Hne].
  - injection H as <-. cbn.
    destruct (Z.eqb_spec k k'), (decide (k = k')); congruence.
  - destruct (inc_loop nx k) as [nx'|]; [|discriminate].
    injection H as <-. cbn. rewrite (IH nx' eq_refl).
    destruct (Z.eqb_spec k0 k'), (decide (k = k')); congruence.
Qed.

(** The count of [k] goes up by one, every other count stays. *)
Lemma get_loop_inc_chain e k k' :
  get_loop (inc_chain e k) k' =
    if decide (k = k') then int_wrap (get_loop e k' + 1) else get_loop e k'.
Proof.
  unfold inc_chain. destruct (inc_loop e k) as [e'|] eqn:He.
  - now apply get_loop_inc_loop.
  - apply inc_loop_None in He. cbn.
    destruct (decide (k = k')) as [Heq|Hne].
    + subst k'. rewrite Z.eqb_refl, get_loop_absent by exact He. reflexivity.
    + destruct (Z.eqb_spec k k'); congruence.
Qed.

End Chains.

(** ** The table *)

Section Table.

Implicit Types (hc : hashCounter) (k b : Z) (ks : list Z).

Lemma index_in_range hc h :
  0 <= h < hashSize -> index hc h = Ok (bucket hc h).
Proof.
  intros [H0 H1]. unfold index, bucket.
  apply Z.leb_le in H0. apply Z.ltb_lt in H1. now rewrite H0, H1.
Qed.

Lemma index_out_of_range hc h :
  ~ 0 <= h < hashSize -> index hc h = Panic (IndexOutOfRange h).
Proof.
  intros H. unfold index.
  destruct (Z.leb_spec 0 h), (Z.ltb_spec h hashSize); cbn; try reflexivity; lia.
Qed.

Lemma bucket_zero b : bucket zero_hashCounter b = null.
Proof. reflexivity. Qed.

Lemma bucket_store hc h e b :
  bucket (store hc h e) b = if decide (h = b) then e else bucket hc b.
Proof.
  unfold bucket, store. cbn [entries].
  destruct (decide (h = b)) as [->|Hne].
  - now rewrite lookup_insert_eq.
  - now rewrite lookup_insert_ne.
Qed.

(** The two branches on [*p == nil] store the same chain. *)
Lemma inc_in_range hc k :
  0 <= hash k < hashSize ->
  inc hc k = Ok (store hc (hash k) (inc_chain (bucket hc (hash k)) k)).
Proof.
  intros H. unfold inc. rewrite index_in_range by exact H. cbn.
  unfold inc_chain. destruct (inc_loop (bucket hc (hash k)) k); [reflexivity|].
  destruct (bucket hc (hash k)); reflexivity.
Qed.

Lemma inc_out_of_range hc k :
  ~ 0 <= hash k < hashSize -> inc hc k = Panic (IndexOutOfRange (hash k)).
Proof. intros H. unfold inc. now rewrite index_out_of_range. Qed.

Lemma get_in_range hc k :
  0 <= hash k < hashSize -> get hc k = Ok (get_loop (bucket hc (hash k)) k).
Proof. intros H. unfold get. now rewrite index_in_range. Qed.

Lemma get_out_of_range hc k :
  ~ 0 <= hash k < hashSize -> get hc k = Panic (IndexOutOfRange (hash k)).
Proof. intros H. unfold get. now rewrite index_out_of_range. Qed.

Lemma inc_Ok hc k hc' :
  inc hc k = Ok hc' ->
  0 <= hash k < hashSize /\
  hc' = store hc (hash k) (inc_chain (bucket hc (hash k)) k).
Proof.
  intros H. destruct (decide (0 <= hash k < hashSize)) as [Hr|Hr].
  - rewrite inc_in_range in H by exact Hr. now injection H as <-.
  - rewrite inc_out_of_range in H by exact Hr. discriminate.
Qed.

Lemma inc_all_app ks1 ks2 hc :
  inc_all (ks1 ++ ks2) hc = hc' ← inc_all ks1 hc; inc_all ks2 hc'.
Proof.
  revert hc. induction ks1 as [|k ks1 IH]; intros hc; cbn; [reflexivity|].
  destruct (inc hc k) as [hc1|p]; cbn; [apply IH | reflexivity].
Qed.

Lemma inc_all_snoc_Ok ks k hc hc' :
  inc_all (ks ++ [k]) hc = Ok hc' ->
  exists hc1, inc_all ks hc = Ok hc1 /\ inc hc1 k = Ok hc'.
Proof.
  rewrite inc_all_app. destruct (inc_all ks hc) as [hc1|p]; cbn; [|discriminate].
  destruct (inc hc1 k) as [hc2|p] eqn:E; cbn; [|discriminate].
  intros [= <-]. now exists hc1.
Qed.

(** Calls that cannot panic: all keys hash into the table. *)
Lemma inc_all_total ks hc :
  Forall (fun k => 0 <= hash k < hashSize) ks -> exists hc', inc_all ks hc = Ok hc'.
Proof.
  intros H. revert hc. induction H as [|k ks Hk _ IH]; intros hc; cbn.
  - now exists hc.
  - rewrite inc_in_range by exact Hk. cbn. apply IH.
Qed.

Lemma calls_nil k : calls k [] = 0.
Proof. reflexivity. Qed.

Lemma calls_snoc k ks k0 :
  calls k (ks ++ [k0]) = calls k ks + (if decide (k0 = k) then 1 else 0).
Proof.
  unfold calls. rewrite filter_app, length_app, filter_cons, filter_nil.
  destruct (decide (k0 = k)); cbn; lia.
Qed.

Lemma calls_cons k ks k0 :
  calls k (k0 :: ks) = (if decide (k0 = k) then 1 else 0) + calls k ks.
Proof.
  unfold calls. rewrite filter_cons.
  destruct (decide (k0 = k)); cbn [List.length]; lia.
Qed.

Lemma calls_bounds k ks : 0 <= calls k ks <= len ks.
Proof.
  unfold calls, len.
  pose proof (length_filter (fun k' => k' = k) ks). lia.
Qed.

Lemma calls_absent k ks : k ∉ ks -> calls k ks = 0.
Proof.
  intros H. unfold calls.
  destruct (filter (fun k' => k' = k) ks) as [|x l] eqn:E; [reflexivity|].
  exfalso. assert (x ∈ filter (fun k' => k' = k) ks) as Hx by (rewrite E; left).
  apply list_elem_of_filter in Hx as [-> Hx]. contradiction.
Qed.

Lemma calls_present k ks : k ∈ ks -> 0 < calls k ks.
Proof.
  intros H. unfold calls.
  assert (k ∈ filter (fun k' => k' = k) ks) as Hx by now apply list_elem_of_filter.
  destruct (filter (fun k' => k' = k) ks); [inversion Hx | cbn; lia].
Qed.

Lemma table_inv_zero : table_inv [] zero_hashCounter.
Proof.
  intros b. rewrite bucket_zero. cbn. split; [constructor|]. split.
  - intros k. split; [intros H; inversion H | intros [H _]; inversion H].
  - reflexivity.
Qed.

Lemma table_inv_inc ks hc k0 hc' :
  table_inv ks hc -> inc hc k0 = Ok hc' -> table_inv (ks ++ [k0]) hc'.
Proof.
  intros Hinv [Hr ->]%inc_Ok b. rewrite bucket_store.
  destruct (Hinv b) as (Hnd & Hkeys & Hget).
  destruct (decide (hash k0 = b)) as [Hb|Hb].
  - subst b. split; [now apply inc_chain_NoDup|]. split.
    + intros k. rewrite inc_chain_keys, Hkeys, elem_of_app, list_elem_of_singleton.
      split; [intros [->|[H1 H2]]; auto | intros [[H1| ->] H2]; auto].
    + intros k Hk. rewrite get_loop_inc_chain, calls_snoc, Hget by exact Hk.
      destruct (decide (k0 = k)); [apply int_wrap_succ | f_equal; lia].
  - split; [exact Hnd|]. split.
    + intros k. rewrite Hkeys, elem_of_app, list_elem_of_singleton.
      split; [intros [H1 H2]; auto | intros [[H1| ->] H2]; [auto | contradiction]].
    + intros k Hk. rewrite calls_snoc, Hget by exact Hk.
      destruct (decide (k0 = k)) as [->|]; [contradiction | f_equal; lia].
Qed.

Lemma table_inv_inc_all ks hc :
  inc_all ks zero_hashCounter = Ok hc -> table_inv ks hc.
Proof.
  revert hc. induction ks as [|k ks IH] using rev_ind; intros hc H.
  - injection H as <-. apply table_inv_zero.
  - apply inc_all_snoc_Ok in H as (hc1 & H1 & H2).
    eapply table_inv_inc; eauto.
Qed.

Lemma inc_all_bucket_discipline ks hc :
  inc_all ks zero_hashCounter = Ok hc -> bucket_discipline hc.
Proof.
  intros Hinv%table_inv_inc_all b k Hk.
  destruct (Hinv b) as (_ & Hkeys & _). now apply Hkeys in Hk as [_ Hb].
Qed.

(** Every key that was passed to a successful [inc] hashes into the table. *)
Lemma inc_all_Ok_in_range ks hc hc' :
  inc_all ks hc = Ok hc' -> Forall (fun k => 0 <= hash k < hashSize) ks.
Proof.
  revert hc. induction ks as [|k ks IH]; intros hc H; [constructor|].
  cbn in H. destruct (inc hc k) as [hc1|p] eqn:E; cbn in H; [|discriminate].
  constructor; [now apply inc_Ok in E | eauto].
Qed.

End Table.

(** ** The scanner *)

Create HintDb kmer discriminated.

Section Scanner.

Implicit Types (dna w s : list byte) (L i : nat).

Lemma window_length dna L i :
  (i + L <= length dna)%nat -> length (window dna L i) = L.
Proof. intros H. unfold window. rewrite length_take, length_drop. lia. Qed.

Lemma window_codes dna L i : Forall is_code dna -> Forall is_code (window dna L i).
Proof. intros H. unfold window. now apply Forall_take, Forall_drop. Qed.

Lemma slice_window dna L i :
  len dna < 2 ^ 63 -> (i + L <= length dna)%nat ->
  slice dna (Z.of_nat i) (int_wrap (Z.of_nat i + Z.of_nat L)) = Ok (window dna L i).
Proof.
  unfold len. intros Hlen Hi.
  rewrite int_wrap_id by int_range.
  unfold slice, len.
  destruct (Z.leb_spec 0 (Z.of_nat i)); [|lia].
  destruct (Z.leb_spec (Z.of_nat i) (Z.of_nat i + Z.of_nat L)); [|lia].
  destruct (Z.leb_spec (Z.of_nat i + Z.of_nat L) (Z.of_nat (length dna))); [|lia].
  cbn. unfold window. do 3 f_equal; lia.
Qed.

(** As long as every window lies inside the buffer, the loop of [count] is a
    sequence of [inc] calls, one per window, with the key of the window. *)
Lemma count_loop_inc_all dna L (positions : list nat) hc :
  len dna < 2 ^ 63 ->
  Forall (fun i => (i + L <= length dna)%nat) positions ->
  count_loop dna (Z.of_nat L) (map Z.of_nat positions) hc =
  inc_all (map (fun i => encode (window dna L i)) positions) hc.
Proof.
  intros Hlen H. revert hc.
  induction H as [|i positions Hi _ IH]; intros hc; cbn; [reflexivity|].
  unfold count_body. rewrite slice_window by assumption. cbn.
  destruct (inc hc (encode (window dna L i))); cbn; [apply IH | reflexivity].
Qed.

Lemma count_bound dna L :
  len dna < 2 ^ 63 - 1 -> Z.of_nat L < 2 ^ 63 ->
  Z.to_nat (int_wrap (int_wrap (len dna - Z.of_nat L) + 1)) = (S (length dna) - L)%nat.
Proof.
  unfold len. intros Hlen HL.
  rewrite (int_wrap_id (_ - _)) by int_range.
  rewrite int_wrap_id by int_range. lia.
Qed.

Lemma count_inc_all dna L :
  len dna < 2 ^ 63 - 1 -> Z.of_nat L < 2 ^ 63 ->
  count dna (Z.of_nat L) = inc_all (map encode (windows dna L)) zero_hashCounter.
Proof.
  intros Hlen HL. unfold count, loop_indices, windows.
  rewrite count_bound by assumption.
  rewrite count_loop_inc_all, map_map; [reflexivity | lia |].
  apply Forall_forall. intros i Hi%elem_of_seq. lia.
Qed.

(** X5: a buffer shorter than the window has no window, and [count]
    returns the empty table, whatever the bytes. *)
Lemma count_short_buffer dna L :
  (length dna < L)%nat -> Z.of_nat L < 2 ^ 63 ->
  count dna (Z.of_nat L) = Ok zero_hashCounter.
Proof.
  intros Hshort HL. rewrite count_inc_all by (unfold len; lia).
  unfold windows. replace (S (length dna) - L)%nat with 0%nat by lia.
  reflexivity.
Qed.

Lemma windows_all dna L (P : list byte -> Prop) :
  (forall i, (i + L <= length dna)%nat -> P (window dna L i)) ->
  Forall P (windows dna L).
Proof.
  intros H. unfold windows. apply Forall_forall.
  intros w (i & <- & Hi%in_seq)%list_elem_of_In%in_map_iff.
  apply H. lia.
Qed.

Lemma windows_length dna L : length (windows dna L) = (S (length dna) - L)%nat.
Proof. unfold windows. now rewrite length_map, length_seq. Qed.

(** *** The brute-force count, by position *)

Lemma starts_with_take w s : starts_with w s = true <-> take (length w) s = w.
Proof.
  revert s. induction w as [|a w IH]; intros [|b s]; cbn; try easy.
  rewrite andb_true_iff, bool_decide_eq_true, IH.
  split; [intros [-> ->]; reflexivity | intros [= -> ->]; auto].
Qed.

Lemma occurrences_short w s : (length s < length w)%nat -> occurrences w s = 0.
Proof.
  induction s as [|b s IH]; intros H.
  - destruct w; [cbn in H; lia | reflexivity].
  - cbn [occurrences]. rewrite IH by (cbn in H; lia).
    destruct (starts_with w (b :: s)) eqn:E; [|reflexivity].
    apply starts_with_take in E. apply (f_equal length) in E.
    rewrite length_take in E. lia.
Qed.

Lemma windows_cons a s L :
  (L <= S (length s))%nat ->
  windows (a :: s) L = take L (a :: s) :: windows s L.
Proof.
  intros H. unfold windows. cbn [length].
  replace (S (S (length s)) - L)%nat with (S (S (length s) - L)) by lia.
  cbn [seq map]. f_equal. rewrite <- seq_shift, map_map. reflexivity.
Qed.

Lemma windows_too_long s L : (length s < L)%nat -> windows s L = [].
Proof.
  intros H. unfold windows.
  replace (S (length s) - L)%nat with 0%nat by lia. reflexivity.
Qed.

(** The windows equal to [w] are as many as the positions where [w]
    occurs. *)
Lemma windows_occurrences w s :
  Z.of_nat (length (filter (fun w' => w' = w) (windows s (length w)))) =
  occurrences w s.
Proof.
  induction s as [|b s IH].
  - destruct w; reflexivity.
  - cbn [occurrences]. rewrite <- IH.
    destruct (decide (length w <= S (length s))%nat) as [Hle|Hgt].
    + rewrite windows_cons, filter_cons by exact Hle.
      destruct (starts_with w (b :: s)) eqn:E.
      * apply starts_with_take in E.
        destruct (decide (take (length w) (b :: s) = w)); [|contradiction].
        cbn [length]. lia.
      * destruct (decide (take (length w) (b :: s) = w)) as [E'|_]; [|lia].
        apply starts_with_take in E'. congruence.
    + rewrite !windows_too_long by (cbn [length]; lia).
      destruct (starts_with w (b :: s)) eqn:E; [|reflexivity].
      apply starts_with_take in E. apply (f_equal length) in E.
      rewrite length_take in E. cbn [length] in E. lia.
Qed.

End Scanner.

#[global] Hint Resolve window_codes window_length Forall_take Forall_drop : kmer.

(** ** Counting *)

Section Counting.

Implicit Types (hc : hashCounter) (k : Z) (ks : list Z) (dna w : list byte).

(** After the calls [ks], [get] finds the number of calls of each key that
    hashes into the table. *)
Lemma get_inc_all ks hc k :
  inc_all ks zero_hashCounter = Ok hc -> 0 <= hash k < hashSize ->
  get hc k = Ok (int_wrap (calls k ks)).
Proof.
  intros H%table_inv_inc_all Hk. rewrite get_in_range by exact Hk.
  destruct (H (hash k)) as (_ & _ & Hget). now rewrite Hget.
Qed.

Lemma calls_int ks k : len ks < 2 ^ 63 -> int_wrap (calls k ks) = calls k ks.
Proof.
  intros H. apply int_wrap_id. pose proof (calls_bounds k ks).
  unfold is_int. lia.
Qed.

(** Keys of windows of one length up to 32 are equal only for equal
    windows, so counting keys is counting windows. *)
Lemma calls_encode (ws : list (list byte)) w :
  Forall (fun w' => Forall is_code w' /\ length w' = length w) ws ->
  Forall is_code w -> (length w <= 32)%nat ->
  calls (encode w) (map encode ws) =
  Z.of_nat (length (filter (fun w' => w' = w) ws)).
Proof.
  intros Hws Hw HL. induction Hws as [|w' ws [Hc Hlen] _ IH].
  - reflexivity.
  - cbn [map]. rewrite calls_cons, IH, filter_cons.
    destruct (decide (w' = w)) as [->|Hne].
    + rewrite decide_True by reflexivity. cbn [length]. lia.
    + rewrite decide_False; [lia|].
      rewrite !encode_base4 by (assumption || lia).
      intros E. apply Hne. now apply base4_inj.
Qed.

Lemma hash_encode_in_range w :
  Forall is_code w -> (length w <= 31)%nat -> 0 <= hash (encode w) < hashSize.
Proof.
  intros Hw HL. apply hash_range.
  rewrite encode_base4 by (assumption || lia).
  pose proof (base4_range w Hw) as [H0 H1]. split; [exact H0|].
  eapply Z.lt_le_trans; [exact H1|].
  change (2 ^ 63) with (2 * 4 ^ 31).
  assert (4 ^ len w <= 4 ^ 31) by (apply Z.pow_le_mono_r; unfold len; lia).
  lia.
Qed.

(** The counting pass is right whenever no key of a window, and not the key
    asked for, hashes below zero. *)
Lemma count_get_occurrences dna w :
  Forall is_code dna -> Forall is_code w ->
  len dna < 2 ^ 63 - 1 -> (length w <= 32)%nat ->
  Forall (fun k => 0 <= hash k < hashSize) (map encode (windows dna (length w))) ->
  0 <= hash (encode w) < hashSize ->
  exists counts,
    count dna (len w) = Ok counts /\
    get counts (encode w) = Ok (occurrences w dna).
Proof.
  intros Hdna Hw Hlen HL Hkeys Hkey.
  destruct (inc_all_total _ zero_hashCounter Hkeys) as [counts Hc].
  exists counts. unfold len at 1.
  rewrite count_inc_all by (unfold len in *; lia).
  split; [exact Hc|].
  rewrite (get_inc_all _ _ _ Hc Hkey), calls_int.
  - rewrite calls_encode; [| |assumption..].
    + f_equal. apply windows_occurrences.
    + apply windows_all. intros i Hi.
      split; auto with kmer.
  - unfold len in *. rewrite length_map, windows_length. lia.
Qed.

Lemma count_get_occurrences_31 dna w :
  Forall is_code dna -> Forall is_code w ->
  len dna < 2 ^ 63 - 1 -> (length w <= 31)%nat ->
  exists counts,
    count dna (len w) = Ok counts /\
    get counts (encode w) = Ok (occurrences w dna).
Proof.
  intros Hdna Hw Hlen HL.
  apply count_get_occurrences; try assumption; try lia.
  - rewrite Forall_map. apply windows_all. intros i Hi.
    apply hash_encode_in_range; [auto with kmer|].
    rewrite window_length by exact Hi. exact HL.
  - now apply hash_encode_in_range.
Qed.

(** X1: for windows of up to 31 codes every key is below [2^62], and the
    counting pass returns a table in which [get] of the key of [w] is the
    brute-force count of [w] in the buffer. *)
Theorem count_correct dna w :
  Forall is_code dna -> Forall is_code w ->
  len dna < 2 ^ 63 - 1 -> (length w <= 31)%nat ->
  exists counts,
    count dna (len w) = Ok counts /\
    get counts (encode w) = Ok (occurrences w dna).
Proof. apply count_get_occurrences_31. Qed.

(** The brute-force count is the same on the letters and on their codes. *)
Lemma starts_with_Replace w s :
  Forall (fun b => alphabet b = true) w -> Forall (fun b => alphabet b = true) s ->
  starts_with (toNum.Replace w) (toNum.Replace s) = starts_with w s.
Proof.
  intros Hw. revert s. induction Hw as [|a w Ha _ IH]; intros s Hs; [reflexivity|].
  destruct Hs as [|b s Hb Hs]; [reflexivity|]. cbn. rewrite IH by exact Hs.
  f_equal. apply bool_decide_ext. split; [|now intros ->].
  now apply toNum_byte_inj.
Qed.

Lemma occurrences_Replace w s :
  Forall (fun b => alphabet b = true) w -> Forall (fun b => alphabet b = true) s ->
  occurrences (toNum.Replace w) (toNum.Replace s) = occurrences w s.
Proof.
  intros Hw Hs. induction Hs as [|b s Hb Hs IH].
  - destruct w; reflexivity.
  - change (toNum.Replace (b :: s)) with (toNum_byte b :: toNum.Replace s).
    cbn [occurrences]. rewrite IH. f_equal.
    change (toNum_byte b :: toNum.Replace s) with (toNum.Replace (b :: s)).
    rewrite starts_with_Replace; [reflexivity | exact Hw | now constructor].
Qed.

Lemma read_Replace stdin_lines :
  read stdin_lines = toNum.Replace (concat stdin_lines).
Proof.
  rewrite read_concat. unfold toNum.Replace.
  induction stdin_lines as [|text rest IH]; cbn; [reflexivity|].
  now rewrite IH, map_app.
Qed.

Lemma main_occurrences stdin_lines :
  Forall (Forall (fun b => alphabet b = true)) stdin_lines ->
  len (concat stdin_lines) < 2 ^ 63 - 1 ->
  main stdin_lines = Ok (occurrences sequence (concat stdin_lines)).
Proof.
  intros Hlines Hlen. unfold main. cbv zeta. rewrite read_Replace.
  assert (Forall (fun b => alphabet b = true) (concat stdin_lines)) as Hdna
      by now apply Forall_concat.
  assert (Forall (fun b => alphabet b = true) sequence) as Hseq by compute_done.
  destruct (count_get_occurrences_31 (toNum.Replace (concat stdin_lines))
              (toNum.Replace sequence)) as (counts & Hc & Hg).
  - now apply Replace_codes.
  - now apply Replace_codes.
  - unfold len in *. now rewrite Replace_length.
  - vm_compute. lia.
  - replace (len (toNum.Replace sequence)) with (len sequence) in Hc
      by (unfold len; now rewrite Replace_length).
    rewrite Hc. cbv [mbind result_bind]. rewrite Hg. f_equal.
    now apply occurrences_Replace.
Qed.


End Counting.

(** * Main results *)

(** ** The bucket index *)

(** What holds of the bucket index: on every key below [2^63] it is the key
    modulo [hashSize], which is the low 18 bits of the key, and it lies
    inside the array. *)
Lemma hash_low_keys key :
  0 <= key < 2 ^ 63 ->
  hash key = key mod hashSize /\
  hash key = Z.land key (Z.ones 18) /\
  0 <= hash key < hashSize.
Proof.
  intros H. split; [now apply hash_mod|]. split; [|now apply hash_range].
  now apply hash_land.
Qed.

(** C2: at the [uint64] key [2^64 - 1], which is the key [encode] packs for
    a window of 32 letters [T], the bucket index is not the key modulo
    [hashSize]: the conversion [int(key)] is [-1], the remainder is [-1], and
    both [get] and [inc] stop with an index out of range.  The key modulo
    [hashSize], and the low 18 bits, are [262143]. *)
Theorem hash_top_bit_key_out_of_bounds :
  let key := 2 ^ 64 - 1 in
  is_uint64 key /\
  encode (toNum.Replace (bytes "TTTTTTTTTTTTTTTTTTTTTTTTTTTTTTTT")) = key /\
  key mod hashSize = 262143 /\
  Z.land key (Z.ones 18) = 262143 /\
  hash key = -1 /\
  get zero_hashCounter key = Panic (IndexOutOfRange (-1)) /\
  inc zero_hashCounter key = Panic (IndexOutOfRange (-1)).
Proof.
  cbv zeta. split; [unfold is_uint64; lia|]. repeat split; reflexivity.
Qed.

(** ** Keys that were never counted *)

(** X9: on a table built by [inc] calls, the empty one included, [get] of
    a key that was never passed to [inc] returns 0, provided the bucket
    index of the key lies inside the array (as for every key below
    [2^63]). *)
Lemma get_never_counted ks hc k :
  inc_all ks zero_hashCounter = Ok hc -> k ∉ ks ->
  0 <= hash k < hashSize ->
  get hc k = Ok 0.
Proof.
  intros H Hk Hr. rewrite (get_inc_all _ _ _ H Hr), calls_absent by exact Hk.
  reflexivity.
Qed.

(** C7: [get] on a key that [inc] never saw does not always return 0.  On
    the empty table, and on the table after [inc(0)] and [inc(5)], [get] of
    the key [2^64 - 1] stops with an index out of range, because the bucket
    index of that key is [-1]. *)
Theorem get_never_counted_top_bit_key_panics :
  let key := 2 ^ 64 - 1 in
  get zero_hashCounter key = Panic (IndexOutOfRange (-1)) /\
  exists hc,
    inc_all [0; 5] zero_hashCounter = Ok hc /\
    calls key [0; 5] = 0 /\
    get hc 7 = Ok 0 /\
    get hc key = Panic (IndexOutOfRange (-1)).
Proof.
  cbv zeta. split; [reflexivity|].
  eexists. split; [reflexivity|]. repeat split; reflexivity.
Qed.

(** ** The counting pass against the brute-force count *)

(** C1: for the window length 32, which satisfies [2 * L <= 64], the
    counting pass over a buffer of 32 letters [T] does not return the
    brute-force count 1 of its only window: the key of the window is
    [2^64 - 1], its bucket index is [-1], and [inc] stops the pass with an
    index out of range.  On a buffer shorter than the window the pass returns
    the empty table, and the query for that window stops in the same way
    instead of returning 0. *)
Theorem count_panics_at_length_32 :
  let w := toNum.Replace (bytes "TTTTTTTTTTTTTTTTTTTTTTTTTTTTTTTT") in
  Forall is_code w /\ len w = 32 /\
  occurrences w w = 1 /\
  count w 32 = Panic (IndexOutOfRange (-1)) /\
  count (toNum.Replace (bytes "TTT")) 32 = Ok zero_hashCounter /\
  get zero_hashCounter (encode w) = Panic (IndexOutOfRange (-1)).
Proof.
  cbv zeta. split; [compute_done|]. repeat split; reflexivity.
Qed.

(** The scenarios of the specification, on the code. *)
Example scenario_AAAA :
  exists counts,
    count (toNum.Replace (bytes "AAAA")) 2 = Ok counts /\
    get counts (encode (toNum.Replace (bytes "AA"))) = Ok 3 /\
    get counts (encode (toNum.Replace (bytes "GG"))) = Ok 0.
Proof. eexists. split; [reflexivity|]. split; reflexivity. Qed.

Example scenario_short_buffer :
  count (toNum.Replace (bytes "ACG")) 5 = Ok zero_hashCounter /\
  get zero_hashCounter (encode (toNum.Replace (bytes "ACGTA"))) = Ok 0.
Proof. split; reflexivity. Qed.

Example scenario_main :
  main [bytes "CCGGTATTTTAATTTATAGTGGTATT"; bytes "TTAATTTATAGTAC"] = Ok 2.
Proof. reflexivity. Qed.

(** ** Bytes outside the alphabet *)




(** ** One entry per key *)

(** C4: in a table built from the empty one by [inc] calls, two entries with
    the same key are the same entry (same bucket, same place in the chain),
    also when several keys share a bucket; the value of an entry is the
    number of calls for its key (the counter is an [int], so this is the
    number itself as long as it is below [2^63]); and every key that was
    passed to [inc] has its entry, in the bucket of its hash. *)
Theorem one_entry_per_key ks hc :
  inc_all ks zero_hashCounter = Ok hc ->
  (forall b1 n1 b2 n2 k v1 v2,
     entry_at hc b1 n1 = Some (k, v1) -> entry_at hc b2 n2 = Some (k, v2) ->
     b1 = b2 /\ n1 = n2) /\
  (forall b n k v,
     entry_at hc b n = Some (k, v) ->
     k ∈ ks /\ v = int_wrap (calls k ks) /\ (calls k ks < 2 ^ 63 -> v = calls k ks)) /\
  (forall k, k ∈ ks -> exists n v, entry_at hc (hash k) n = Some (k, v)).
Proof.
  intros Hinv%table_inv_inc_all. unfold entry_at.
  assert (Hplace : forall b n k v,
             chain (bucket hc b) !! n = Some (k, v) ->
             k ∈ ks /\ hash k = b /\ (chain (bucket hc b)).*1 !! n = Some k).
  { intros b n k v H. destruct (Hinv b) as (_ & Hkeys & _).
    assert ((chain (bucket hc b)).*1 !! n = Some k) as Hn
        by (rewrite list_lookup_fmap, H; reflexivity).
    pose proof (list_elem_of_lookup_2 _ _ _ Hn) as [Hk Hb]%Hkeys.
    repeat split; assumption. }
  split; [|split].
  - intros b1 n1 b2 n2 k v1 v2 H1 H2.
    apply Hplace in H1 as (_ & <- & H1). apply Hplace in H2 as (_ & <- & H2).
    split; [reflexivity|].
    destruct (Hinv (hash k)) as (Hnd & _ & _).
    exact (NoDup_lookup _ _ _ _ Hnd H1 H2).
  - intros b n k v H. destruct (Hplace _ _ _ _ H) as (Hk & <- & _).
    destruct (Hinv (hash k)) as (Hnd & _ & Hget).
    apply list_elem_of_lookup_2 in H.
    rewrite <- (get_loop_elem _ _ _ Hnd H), Hget by reflexivity.
    split; [exact Hk|]. split; [reflexivity|].
    intros Hc. apply int_wrap_id. pose proof (calls_bounds k ks).
    unfold is_int. lia.
  - intros k Hk. destruct (Hinv (hash k)) as (_ & Hkeys & _).
    assert (k ∈ (chain (bucket hc (hash k))).*1) as Hin by now apply Hkeys.
    apply list_elem_of_fmap in Hin as ([k' v] & -> & Hin).
    apply list_elem_of_lookup_1 in Hin as [n Hn]. now exists n, v.
Qed.

(** The keys 1 and 262145 share bucket 1. *)
Lemma one_entry_per_key_witness :
  exists hc,
    inc_all [1; 262145; 1] zero_hashCounter = Ok hc /\
    entry_at hc 1 0 = Some (262145, 1) /\
    entry_at hc 1 1 = Some (1, 2) /\
    (forall k, k ∈ [1; 262145; 1] -> exists n v, entry_at hc (hash k) n = Some (k, v)).
Proof.
  eexists. split; [reflexivity|]. split; [reflexivity|]. split; [reflexivity|].
  apply (one_entry_per_key [1; 262145; 1]). reflexivity.
Defined.

(** ** What one call touches *)

(** C10: a call [inc(k)] that returns leaves every other bucket as it was.
    In the bucket of [k] either the first entry with key [k] has its value
    raised by one and the chain is otherwise the same, entry for entry, or
    the chain has no entry with key [k] and gets a new first entry [(k, 1)]
    in front of the unchanged old chain.  In a table where every entry sits
    in the bucket of its hash (as in every table built by [inc]), the chain
    of that bucket has no entry for [k] exactly when the whole table has
    none. *)
Theorem inc_frame hc k hc' :
  inc hc k = Ok hc' ->
  (forall b, b <> hash k -> bucket hc' b = bucket hc b) /\
  ((exists l1 v l2,
      chain (bucket hc (hash k)) = l1 ++ (k, v) :: l2 /\ (k ∉ l1.*1) /\
      chain (bucket hc' (hash k)) = l1 ++ (k, int_wrap (v + 1)) :: l2)
   \/
   ((k ∉ (chain (bucket hc (hash k))).*1) /\
    chain (bucket hc' (hash k)) = (k, 1) :: chain (bucket hc (hash k)))) /\
  (bucket_discipline hc ->
   (k ∉ (chain (bucket hc (hash k))).*1) <->
   (forall b n v, entry_at hc b n <> Some (k, v))).
Proof.
  intros [Hr ->]%inc_Ok. split; [|split].
  - intros b Hb. rewrite bucket_store. destruct (decide (hash k = b)); congruence.
  - rewrite bucket_store, decide_True by reflexivity. unfold inc_chain.
    destruct (inc_loop (bucket hc (hash k)) k) as [p'|] eqn:E.
    + left. now apply inc_loop_Some.
    + right. apply inc_loop_None in E. split; [exact E | reflexivity].
  - intros Hd. unfold entry_at. split.
    + intros Hk b n v Hn. apply Hk.
      assert ((k, v) ∈ chain (bucket hc b)) as Hin
          by (eapply list_elem_of_lookup_2; eauto).
      assert (k ∈ (chain (bucket hc b)).*1) as Hkb
          by (apply list_elem_of_fmap; now exists (k, v)).
      now rewrite <- (Hd b k Hkb) in Hkb.
    + intros Hall ([k' v] & E & Hin)%list_elem_of_fmap. cbn in E. subst k'.
      apply list_elem_of_lookup_1 in Hin as [n Hn]. exact (Hall _ _ _ Hn).
Qed.

Lemma inc_frame_witness :
  exists hc hc',
    inc_all [1; 262145] zero_hashCounter = Ok hc /\
    inc hc 1 = Ok hc' /\
    chain (bucket hc 1) = [(262145, 1); (1, 1)] /\
    chain (bucket hc' 1) = [(262145, 1); (1, 2)] /\
    (forall b, b <> hash 1 -> bucket hc' b = bucket hc b).
Proof.
  eexists. eexists. split; [reflexivity|]. split; [reflexivity|].
  split; [reflexivity|]. split; [reflexivity|].
  eapply inc_frame. reflexivity.
Defined.

(** ** Two runs *)



(** ** Keys of long and of sliding windows *)

Section Sliding.

Implicit Types (dna l m : list byte) (L i j : nat).

Lemma base4_app l1 l2 : base4 (l1 ++ l2) = base4 l1 * 4 ^ len l2 + base4 l2.
Proof.
  induction l1 as [|a l1 IH]; cbn [base4 app]; [lia|].
  rewrite IH, len_app, Z.pow_add_r by apply len_nonneg. lia.
Qed.

Lemma pow4_64 n : 32 <= n -> 4 ^ n = 2 ^ 64 * 4 ^ (n - 32).
Proof.
  intros H. change (2 ^ 64) with (4 ^ 32).
  rewrite <- Z.pow_add_r by lia. f_equal. lia.
Qed.

Lemma pow4_divides_64 n : 0 <= n <= 32 -> 2 ^ 64 = 4 ^ n * 4 ^ (32 - n).
Proof.
  intros H. change (2 ^ 64) with (4 ^ 32).
  rewrite <- Z.pow_add_r by lia. f_equal. lia.
Qed.

(** Beyond 32 codes the key keeps the last 32 only. *)
Lemma encode_last_32 l :
  Forall is_code l -> (32 <= length l)%nat ->
  encode l = base4 (drop (length l - 32) l).
Proof.
  intros Hl Hlen. rewrite encode_base4_mod by exact Hl.
  rewrite <- (take_drop (length l - 32) l) at 1.
  set (suffix := drop (length l - 32) l).
  assert (length suffix = 32%nat) as Hs by (unfold suffix; rewrite length_drop; lia).
  rewrite base4_app. unfold len at 1. rewrite Hs.
  change (4 ^ Z.of_nat 32) with (2 ^ 64).
  rewrite Z.add_comm, Z.mod_add by lia.
  apply Z.mod_small, base4_lt_2_64; [unfold suffix; auto with kmer | lia].
Qed.

(** Dropping the first code of a window is reducing its key modulo
    [4 ^ L], for the number [L] of codes that stay. *)
Lemma encode_drop_first a l :
  Forall is_code (a :: l) -> encode (a :: l) mod 4 ^ len l = encode l.
Proof.
  intros H. pose proof (Forall_inv_tail H) as Hl.
  rewrite !encode_base4_mod by assumption. cbn [base4].
  pose proof (base4_range l Hl) as Hb. pose proof (len_nonneg l) as H0.
  assert (0 < 4 ^ len l) as Hpos by (apply Z.pow_pos_nonneg; lia).
  destruct (decide (len l <= 32)) as [Hle|Hgt].
  - rewrite Z.mod_mod_divide.
    2:{ exists (4 ^ (32 - len l)). rewrite Z.mul_comm. apply pow4_divides_64. lia. }
    rewrite Z.add_comm, Z.mod_add by lia.
    rewrite (Z.mod_small (base4 l) (4 ^ len l)) by lia.
    symmetry. apply Z.mod_small. split; [lia|].
    eapply Z.lt_le_trans; [apply Hb|].
    change (2 ^ 64) with (4 ^ 32). apply Z.pow_le_mono_r; lia.
  - rewrite (pow4_64 (len l)) at 1 by lia.
    rewrite (Z.mul_comm (2 ^ 64)), Z.mul_assoc, Z.add_comm, Z.mod_add by lia.
    apply Z.mod_small.
    pose proof (Z.mod_pos_bound (base4 l) (2 ^ 64) eq_refl).
    split; [lia|]. eapply Z.lt_le_trans with (m := 2 ^ 64); [lia|].
    change (2 ^ 64) with (4 ^ 32). apply Z.pow_le_mono_r; lia.
Qed.

Lemma spec_key_mask_mod L x : Z.land x (spec_key_mask L) = x mod 4 ^ Z.of_nat L.
Proof.
  unfold spec_key_mask. rewrite Z.land_ones by lia.
  now rewrite Z.pow_mul_r by lia.
Qed.

Lemma spec_next_key_encode L l c :
  spec_next_key L (encode l) c = encode (l ++ [c]) mod 4 ^ Z.of_nat L.
Proof. unfold spec_next_key. now rewrite spec_key_mask_mod, encode_snoc. Qed.

Lemma encode_lt_pow l : Forall is_code l -> 0 <= encode l < 4 ^ len l.
Proof.
  intros H. rewrite encode_base4_mod by exact H.
  pose proof (base4_range l H). pose proof (Z.mod_pos_bound (base4 l) (2 ^ 64) eq_refl).
  split; [lia|]. apply Z.le_lt_trans with (m := base4 l); [|lia].
  apply Z.mod_le; lia.
Qed.

(** Folding the first codes in from zero gives the key [encode] packs. *)
Lemma fold_spec_next_key L l :
  Forall is_code l -> (length l <= L)%nat ->
  fold_left (spec_next_key L) l 0 = encode l.
Proof.
  induction l as [|c l IH] using rev_ind; intros Hl Hlen; [reflexivity|].
  rewrite length_app in Hlen. cbn in Hlen.
  rewrite fold_left_app. cbn [fold_left].
  rewrite IH by (try lia; now apply Forall_app in Hl as [? _]).
  rewrite spec_next_key_encode. apply Z.mod_small.
  pose proof (encode_lt_pow _ Hl) as [H0 H1]. split; [exact H0|].
  eapply Z.lt_le_trans; [exact H1|].
  apply Z.pow_le_mono_r; [lia|]. unfold len. rewrite length_app. cbn. lia.
Qed.

Lemma window_step dna L j a c :
  dna !! j = Some a -> dna !! (j + S L)%nat = Some c ->
  window dna (S L) j = a :: window dna L (S j) /\
  window dna (S L) (S j) = window dna L (S j) ++ [c].
Proof.
  intros Ha Hc. unfold window. split.
  - now rewrite (drop_S _ _ _ Ha).
  - apply take_S_r. rewrite lookup_drop.
    replace (S j + L)%nat with (j + S L)%nat by lia. exact Hc.
Qed.

(** One step of the incremental packer, from the window at [j] to the
    window at [j + 1]. *)
Lemma spec_next_key_window dna L j c :
  Forall is_code dna -> dna !! (j + L)%nat = Some c ->
  spec_next_key L (encode (window dna L j)) c = encode (window dna L (S j)).
Proof.
  intros Hdna Hc. destruct L as [|L].
  - unfold spec_next_key, spec_key_mask, window. cbn. now rewrite Z.land_0_r.
  - assert (j + S L < length dna)%nat as Hlt by (eapply lookup_lt_Some; eauto).
    destruct (lookup_lt_is_Some_2 dna j) as [a Ha]; [lia|].
    destruct (window_step dna L j a c Ha Hc) as [E1 E2].
    rewrite spec_next_key_encode, E1, E2.
    change ((a :: window dna L (S j)) ++ [c]) with (a :: (window dna L (S j) ++ [c])).
    replace (Z.of_nat (S L)) with (len (window dna L (S j) ++ [c])).
    + apply encode_drop_first. constructor.
      * eapply Forall_forall; [exact Hdna|]. eapply list_elem_of_lookup_2; eauto.
      * rewrite <- E2. auto with kmer.
    + unfold len. rewrite length_app, window_length by lia. cbn. lia.
Qed.

Lemma spec_incremental_keys_from_windows dna L n j :
  Forall is_code dna -> (j + L + n = length dna)%nat ->
  spec_incremental_keys_from L (encode (window dna L j)) (drop (j + L) dna) =
  map (fun i => encode (window dna L i)) (seq (S j) n).
Proof.
  intros Hdna. revert j. induction n as [|n IH]; intros j Hn.
  - rewrite drop_ge by lia. reflexivity.
  - destruct (lookup_lt_is_Some_2 dna (j + L)) as [c Hc]; [lia|].
    rewrite (drop_S _ _ _ Hc). cbn [spec_incremental_keys_from seq map].
    rewrite (spec_next_key_window dna L j c Hdna Hc). f_equal.
    replace (S (j + L)) with (S j + L)%nat by lia. apply IH. lia.
Qed.

End Sliding.

(** ** The incremental packer against [encode] *)

(** C5: on a buffer of codes, the incremental packer of the specification
    and the from-scratch [encode] of the program agree: the key sequences
    are equal, and at every position [i >= 1] the update of the key of the
    window at [i - 1] with the code that enters the window is the key
    [encode] packs for the window at [i]. *)
Theorem incremental_packer_refines_encode dna L :
  Forall is_code dna ->
  spec_incremental_keys dna L = naive_keys dna L /\
  forall i code,
    (1 <= i)%nat -> (i + L <= length dna)%nat ->
    dna !! (i + L - 1)%nat = Some code ->
    spec_next_key L (encode (window dna L (i - 1))) code = encode (window dna L i).
Proof.
  intros Hdna. split.
  - unfold spec_incremental_keys, naive_keys, windows.
    destruct (decide (L <= length dna)%nat) as [Hle|Hgt].
    + replace (S (length dna) - L)%nat with (S (length dna - L)) by lia.
      cbn [seq map]. cbv zeta.
      rewrite fold_spec_next_key by
        (try (now apply Forall_take); rewrite length_take; lia).
      change (take L dna) with (window dna L 0). f_equal.
      rewrite map_map.
      apply (spec_incremental_keys_from_windows dna L (length dna - L) 0 Hdna). lia.
    + replace (S (length dna) - L)%nat with 0%nat by lia. reflexivity.
  - intros i code Hi Hlen Hcode.
    replace i with (S (i - 1)) at 2 by lia.
    apply spec_next_key_window; [exact Hdna|].
    replace (i - 1 + L)%nat with (i + L - 1)%nat by lia. exact Hcode.
Qed.

Lemma incremental_packer_refines_encode_witness :
  spec_incremental_keys (toNum.Replace (bytes "GATTACAGATTACA")) 3 =
  naive_keys (toNum.Replace (bytes "GATTACAGATTACA")) 3 /\
  spec_next_key 3 (encode (toNum.Replace (bytes "GAT"))) x03 =
  encode (toNum.Replace (bytes "ATT")).
Proof.
  assert (Forall is_code (toNum.Replace (bytes "GATTACAGATTACA"))) as H
      by compute_done.
  destruct (incremental_packer_refines_encode _ 3 H) as [H1 H2].
  split; [exact H1|].
  apply (H2 1%nat x03); [lia | cbn; lia | reflexivity].
Defined.

(** ** The value of a key *)

(** C6, as the code has it: on codes, [encode] returns the base-4 value of
    the sequence truncated to 64 bits; for up to 32 codes that is the
    base-4 value itself, and two sequences of one length up to 32 have the
    same key exactly when they are the same sequence. *)
Theorem encode_base4_injective codes :
  Forall is_code codes ->
  encode codes = base4 codes mod 2 ^ 64 /\
  ((length codes <= 32)%nat ->
   encode codes = base4 codes /\
   forall codes',
     Forall is_code codes' -> length codes' = length codes ->
     (encode codes = encode codes' <-> codes = codes')).
Proof.
  intros H. split; [now apply encode_base4_mod|].
  intros Hlen. split; [now apply encode_base4|].
  intros codes' H' Hlen'. split; [|now intros ->].
  rewrite !encode_base4 by (assumption || lia).
  now apply base4_inj.
Qed.

Lemma encode_base4_injective_witness :
  encode (toNum.Replace (bytes "GATTACA")) = 9156 /\
  base4 (toNum.Replace (bytes "GATTACA")) = 9156 /\
  (encode (toNum.Replace (bytes "GATTACA")) = encode (toNum.Replace (bytes "GATTACC")) <->
   toNum.Replace (bytes "GATTACA") = toNum.Replace (bytes "GATTACC")).
Proof.
  assert (Forall is_code (toNum.Replace (bytes "GATTACA"))) as H
      by compute_done.
  destruct (encode_base4_injective _ H) as [_ H1].
  destruct H1 as [_ H2]; [cbn; lia|].
  split; [reflexivity|]. split; [reflexivity|].
  apply H2; [compute_done | reflexivity].
Defined.

(** C6, refuted as stated: for the 33 codes [1, 0, ..., 0] the base-4 value
    is [4^32 = 2^64], and [encode] returns 0. *)
Lemma encode_33_codes_truncated :
  let codes := x01 :: repeat x00 32 in
  Forall is_code codes /\ length codes = 33%nat /\
  base4 codes = 4 ^ 32 /\
  encode codes = 0 /\
  encode codes <> base4 codes.
Proof.
  cbv zeta. split; [compute_done|]. repeat split; try reflexivity.
  vm_compute. discriminate.
Qed.

(** ** Window lengths beyond the key width *)

(** C8, as the code has it: [count] makes no check of the window length.
    For a length above 32 it runs the same scan as for any other length,
    with one [inc] call per window, and the key of a window is the base-4
    value of its last 32 codes: windows that differ only before their last
    32 codes are counted under one key. *)
Theorem count_key_width_unchecked dna L :
  Forall is_code dna -> len dna < 2 ^ 63 - 1 ->
  (32 < L)%nat -> Z.of_nat L < 2 ^ 63 ->
  count dna (Z.of_nat L) =
  inc_all (map (fun w => base4 (drop (L - 32) w)) (windows dna L)) zero_hashCounter.
Proof.
  intros Hdna Hlen HL Hint.
  rewrite count_inc_all by assumption. f_equal.
  apply map_ext_Forall. apply windows_all. intros i Hi.
  rewrite encode_last_32.
  - now rewrite window_length.
  - auto with kmer.
  - rewrite window_length; lia.
Qed.

Lemma count_key_width_unchecked_witness :
  count (x01 :: repeat x00 33) 33 =
  inc_all (map (fun w => base4 (drop (33 - 32) w)) (windows (x01 :: repeat x00 33) 33))
          zero_hashCounter.
Proof.
  apply (count_key_width_unchecked (x01 :: repeat x00 33) 33).
  - compute_done.
  - vm_compute. reflexivity.
  - lia.
  - lia.
Defined.

(** C8, refuted as stated: with the window length 33 the counting pass runs
    to the end and returns a table; the buffer [1, 0, ..., 0] of 34 codes has
    two different windows, which get the same key 0, and the query for the
    first window returns 2 although it occurs once. *)
Lemma count_length_33_runs :
  let dna := x01 :: repeat x00 33 in
  let w0 := window dna 33 0 in
  let w1 := window dna 33 1 in
  2 * 33 > 64 /\
  w0 <> w1 /\ encode w0 = encode w1 /\
  occurrences w0 dna = 1 /\
  exists counts,
    count dna 33 = Ok counts /\
    get counts (encode w0) = Ok 2.
Proof.
  cbv zeta. split; [lia|].
  split; [vm_compute; discriminate|].
  split; [vm_compute; reflexivity|].
  split; [vm_compute; reflexivity|].
  eexists. split; vm_compute; reflexivity.
Qed.


(** * The built-in maps of rounds 1 to 3 *)

Section GoMaps.

Context {K : Type} `{Countable K}.
Implicit Types (counts : gmap K Z) (st : gmap K nat * list Z) (k key : K)
  (ks : list K).

Lemma times_cons k key ks :
  times k (key :: ks) = (if decide (key = k) then 1 else 0) + times k ks.
Proof.
  unfold times. rewrite filter_cons.
  destruct (decide (key = k)); cbn [List.length]; lia.
Qed.

Lemma times_bounds k ks : 0 <= times k ks <= len ks.
Proof.
  unfold times, len. pose proof (length_filter (fun k' => k' = k) ks). lia.
Qed.

Lemma times_Permutation k ks1 ks2 : ks1 ≡ₚ ks2 -> times k ks1 = times k ks2.
Proof. intros Hp. unfold times. now rewrite Hp. Qed.

Lemma map_incr_lookup counts key k :
  default 0 (map_incr counts key !! k) =
  if decide (key = k) then int_wrap (default 0 (counts !! k) + 1)
  else default 0 (counts !! k).
Proof.
  unfold map_incr. destruct (decide (key = k)) as [->|Hne].
  - now rewrite lookup_insert_eq.
  - now rewrite lookup_insert_ne.
Qed.

(** After [counts[key]++] for every key of [ks], a key that is not in [ks]
    has its old value and any other one its old value plus the number of
    times it is in [ks]. *)
Lemma fold_map_incr ks counts k :
  default 0 (fold_left map_incr ks counts !! k) =
  if decide (times k ks = 0) then default 0 (counts !! k)
  else int_wrap (default 0 (counts !! k) + times k ks).
Proof.
  revert counts. induction ks as [|key ks IH]; intros counts; [reflexivity|].
  cbn [fold_left]. rewrite IH, map_incr_lookup, times_cons.
  pose proof (times_bounds k ks) as Hb.
  destruct (decide (key = k)) as [->|Hne].
  - destruct (decide (1 + times k ks = 0)) as [E|_]; [lia|].
    destruct (decide (times k ks = 0)) as [->|_]; [reflexivity|].
    rewrite int_wrap_succ. f_equal. lia.
  - destruct (decide (0 + times k ks = 0)) as [E|E],
      (decide (times k ks = 0)) as [E'|E']; try lia; reflexivity.
Qed.

Lemma fold_map_incr_empty ks k :
  default 0 (fold_left map_incr ks (∅ : gmap K Z) !! k) = int_wrap (times k ks).
Proof.
  rewrite fold_map_incr, lookup_empty. cbn.
  destruct (decide (times k ks = 0)) as [->|_]; reflexivity.
Qed.

Lemma ptr_map_inv_empty : ptr_map_inv ((∅, []) : gmap K nat * list Z).
Proof.
  split; [|split]; cbn.
  - intros k p Hk. now rewrite lookup_empty in Hk.
  - intros k1 k2 p Hk. now rewrite lookup_empty in Hk.
  - now rewrite map_size_empty.
Qed.

Lemma ptr_map_get_view st key :
  ptr_map_get st key = default 0 (ptr_map_view st !! key).
Proof.
  destruct st as [counts cells]. unfold ptr_map_get, ptr_map_view. cbn.
  rewrite lookup_fmap. now destruct (counts !! key).
Qed.

Lemma deref_incr_at cells p q :
  (p < length cells)%nat ->
  deref (incr_at cells p) q =
  if decide (p = q) then int_wrap (deref cells p + 1) else deref cells q.
Proof.
  intros Hp. unfold incr_at, deref at 1.
  destruct (decide (p = q)) as [<-|Hne].
  - now rewrite list_lookup_total_insert_eq.
  - now rewrite list_lookup_total_insert_ne.
Qed.

(** The pointers are not seen from outside: one step on the map of pointers
    is [counts[key]++] on the map of the values they point to. *)
Lemma ptr_map_incr_view st key :
  ptr_map_inv st ->
  ptr_map_view (ptr_map_incr st key) = map_incr (ptr_map_view st) key.
Proof.
  destruct st as [counts cells]. intros (Hvalid & Hinj & _). cbn in Hvalid, Hinj.
  unfold ptr_map_incr, ptr_map_view, map_incr. cbn [fst snd].
  rewrite lookup_fmap. destruct (counts !! key) as [p|] eqn:Ekey; cbn.
  - apply map_eq. intros k. rewrite lookup_fmap.
    destruct (decide (key = k)) as [<-|Hne].
    + rewrite lookup_insert_eq, Ekey. cbn.
      rewrite deref_incr_at, decide_True by eauto. reflexivity.
    + rewrite lookup_insert_ne, lookup_fmap by exact Hne.
      destruct (counts !! k) as [q|] eqn:Ek; cbn; [|reflexivity].
      rewrite deref_incr_at by eauto.
      rewrite decide_False; [reflexivity|]. intros <-. eauto.
  - rewrite fmap_insert. f_equal.
    + unfold incr_at, deref.
      rewrite list_lookup_total_insert_eq by (rewrite length_app; cbn; lia).
      now rewrite list_lookup_total_middle.
    + apply map_fmap_ext. intros k q Hk. pose proof (Hvalid _ _ Hk) as Hq.
      unfold incr_at, deref.
      rewrite list_lookup_total_insert_ne by lia.
      now rewrite lookup_total_app_l.
Qed.

Lemma ptr_map_incr_inv st key : ptr_map_inv st -> ptr_map_inv (ptr_map_incr st key).
Proof.
  destruct st as [counts cells]. intros (Hvalid & Hinj & Hsize).
  cbn in Hvalid, Hinj, Hsize. unfold ptr_map_incr.
  destruct (counts !! key) as [p|] eqn:Ekey; cbn.
  - split; [|split]; cbn.
    + intros k q Hk. unfold incr_at. rewrite length_insert. eauto.
    + exact Hinj.
    + unfold incr_at. now rewrite length_insert.
  - split; [|split]; cbn.
    + intros k q. unfold incr_at. rewrite length_insert, length_app. cbn.
      destruct (decide (key = k)) as [<-|Hne].
      * rewrite lookup_insert_eq. intros [= <-]. lia.
      * rewrite lookup_insert_ne by exact Hne. intros Hk%Hvalid. lia.
    + intros k1 k2 q.
      destruct (decide (key = k1)) as [<-|Hne1], (decide (key = k2)) as [<-|Hne2];
        rewrite ?lookup_insert_eq, ?lookup_insert_ne by assumption.
      * reflexivity.
      * intros [= <-] Hk%Hvalid. lia.
      * intros Hk%Hvalid [= <-]. lia.
      * apply Hinj.
    + unfold incr_at. rewrite length_insert, length_app. cbn.
      rewrite map_size_insert_None by exact Ekey. lia.
Qed.

Lemma fold_ptr_map_incr ks st :
  ptr_map_inv st ->
  ptr_map_inv (fold_left ptr_map_incr ks st) /\
  ptr_map_view (fold_left ptr_map_incr ks st) =
    fold_left map_incr ks (ptr_map_view st).
Proof.
  revert st. induction ks as [|key ks IH]; intros st Hinv; [now split|].
  cbn [fold_left]. destruct (IH _ (ptr_map_incr_inv st key Hinv)) as [H1 H2].
  split; [exact H1|]. now rewrite H2, ptr_map_incr_view.
Qed.

End GoMaps.

(** * The scanners of all rounds *)

Section Scanners.

Implicit Types (dna w : list byte) (L : nat).

Lemma for_each_positions {S : Type} (body : S -> Z -> result S)
    (step : S -> list byte -> S) dna L (positions : list nat) st :
  (forall st i, i ∈ positions -> body st (Z.of_nat i) = Ok (step st (window dna L i))) ->
  for_each body (map Z.of_nat positions) st =
  Ok (fold_left step (map (window dna L) positions) st).
Proof.
  revert st. induction positions as [|i positions IH]; intros st Hbody; [reflexivity|].
  cbn [map for_each fold_left]. rewrite Hbody by left. cbn.
  apply IH. intros st' j Hj. apply Hbody. now right.
Qed.

(** A loop whose body slices the window at [i] and cannot panic otherwise
    is a fold over the windows. *)
Lemma for_each_windows {S : Type} (body : S -> Z -> result S)
    (step : S -> list byte -> S) dna L st :
  len dna < 2 ^ 63 - 1 -> Z.of_nat L < 2 ^ 63 ->
  (forall st i, (i + L <= length dna)%nat ->
                body st (Z.of_nat i) = Ok (step st (window dna L i))) ->
  for_each body (loop_indices (int_wrap (int_wrap (len dna - Z.of_nat L) + 1))) st =
  Ok (fold_left step (windows dna L) st).
Proof.
  intros Hlen HL Hbody. unfold loop_indices, windows.
  rewrite count_bound by assumption.
  apply for_each_positions. intros st' i Hi%elem_of_seq. apply Hbody. lia.
Qed.

Lemma fold_left_encode {S : Type} (f : S -> Z -> S) (ws : list (list byte)) st :
  fold_left (fun st w => f st (encode w)) ws st = fold_left f (map encode ws) st.
Proof. revert st. induction ws as [|w ws IH]; intros st; cbn; auto. Qed.

Lemma round1_read_concat stdin_lines : Round1.read stdin_lines = concat stdin_lines.
Proof.
  unfold Round1.read.
  enough (forall buf, fold_left (fun buf text => buf ++ text) stdin_lines buf
                      = buf ++ concat stdin_lines) as E by apply (E []).
  induction stdin_lines as [|text rest IH]; intros buf; cbn.
  - now rewrite app_nil_r.
  - now rewrite IH, <- app_assoc.
Qed.

Lemma round1_count_fold dna L :
  len dna < 2 ^ 63 - 1 -> Z.of_nat L < 2 ^ 63 ->
  Round1.count dna (Z.of_nat L) = Ok (fold_left map_incr (windows dna L) ∅).
Proof.
  intros Hlen HL. unfold Round1.count. apply for_each_windows; try assumption.
  intros st i Hi. unfold Round1.count_body.
  rewrite slice_window by (assumption || lia). reflexivity.
Qed.

Lemma round2_count_fold dna L :
  len dna < 2 ^ 63 - 1 -> Z.of_nat L < 2 ^ 63 ->
  Round2.count dna (Z.of_nat L) = Ok (fold_left ptr_map_incr (windows dna L) (∅, [])).
Proof.
  intros Hlen HL. unfold Round2.count. apply for_each_windows; try assumption.
  intros st i Hi. unfold Round2.count_body.
  rewrite slice_window by (assumption || lia). reflexivity.
Qed.

Lemma round3_count_fold dna L :
  len dna < 2 ^ 63 - 1 -> Z.of_nat L < 2 ^ 63 ->
  Round3.count dna (Z.of_nat L) =
  Ok (fold_left ptr_map_incr (naive_keys dna L) (∅, [])).
Proof.
  intros Hlen HL. unfold Round3.count, naive_keys. rewrite <- fold_left_encode.
  apply for_each_windows; try assumption.
  intros st i Hi. unfold Round3.count_body.
  rewrite slice_window by (assumption || lia). reflexivity.
Qed.

(** The number of windows equal to [w], as an [int]. *)
Lemma times_windows dna w :
  len dna < 2 ^ 63 - 1 ->
  int_wrap (times w (windows dna (length w))) = occurrences w dna.
Proof.
  intros Hlen. unfold times. rewrite windows_occurrences.
  apply int_wrap_id.
  pose proof (windows_occurrences w dna) as E.
  pose proof (length_filter (fun w' => w' = w) (windows dna (length w))) as Hle.
  rewrite windows_length in Hle. int_range.
Qed.

(** Round 2 follows round 1 step by step, panics included. *)
Lemma round2_simulates_round1 dna length indices st :
  ptr_map_inv st ->
  match for_each (Round2.count_body dna length) indices st with
  | Ok st' =>
      ptr_map_inv st' /\
      for_each (Round1.count_body dna length) indices (ptr_map_view st) =
        Ok (ptr_map_view st')
  | Panic p =>
      for_each (Round1.count_body dna length) indices (ptr_map_view st) = Panic p
  end.
Proof.
  revert st. induction indices as [|i indices IH]; intros st Hinv; cbn.
  - now split.
  - unfold Round2.count_body, Round1.count_body.
    destruct (slice dna i (int_wrap (i + length))) as [w|p]; cbn; [|reflexivity].
    rewrite <- ptr_map_incr_view by exact Hinv.
    apply IH. now apply ptr_map_incr_inv.
Qed.

End Scanners.

(** * Keys of arbitrary bytes *)

Section AnyBytes.

Implicit Types (dna w l : list byte) (L : nat).

Lemma lor_lt_pow2 n x y :
  0 <= n -> 0 <= x < 2 ^ n -> 0 <= y < 2 ^ n -> 0 <= Z.lor x y < 2 ^ n.
Proof.
  intros Hn [Hx0 Hx] [Hy0 Hy].
  assert (0 <= Z.lor x y) as H0 by now apply Z.lor_nonneg.
  split; [exact H0|].
  destruct (Z.eq_dec (Z.lor x y) 0) as [->|Hne]; [apply Z.pow_pos_nonneg; lia|].
  assert (0 < n) as Hpos.
  { destruct (Z.eq_dec n 0) as [->|]; [|lia]. exfalso. apply Hne.
    replace x with 0 by (cbn in Hx; lia). replace y with 0 by (cbn in Hy; lia).
    reflexivity. }
  apply Z.log2_lt_pow2; [lia|].
  rewrite Z.log2_lor by assumption.
  apply Z.max_lub_lt.
  - destruct (Z.eq_dec x 0) as [->|]; [cbn; lia | apply Z.log2_lt_pow2; lia].
  - destruct (Z.eq_dec y 0) as [->|]; [cbn; lia | apply Z.log2_lt_pow2; lia].
Qed.

(** Every byte adds two bits to the key, and the last one up to six
    more. *)
Lemma encode_bound l : 0 <= encode l < 2 ^ (2 * len l + 6).
Proof.
  induction l as [|c l IH] using rev_ind; [change (0 <= 0 < 64); lia|].
  rewrite encode_snoc, len_app. change (len [c]) with 1.
  pose proof (len_nonneg l) as Hl.
  replace (2 * (len l + 1) + 6) with (2 * len l + 8) by lia.
  apply lor_lt_pow2; [lia| |].
  - unfold shl64, uint64_wrap. rewrite Z.shiftl_mul_pow2 by lia.
    pose proof (Z.mod_pos_bound (encode l * 2 ^ 2) (2 ^ 64) eq_refl).
    split; [lia|]. eapply Z.le_lt_trans; [apply Z.mod_le; lia|].
    replace (2 * len l + 8) with ((2 * len l + 6) + 2) by lia.
    rewrite Z.pow_add_r by lia. lia.
  - pose proof (uint64_of_byte_range c). split; [lia|].
    eapply Z.lt_le_trans with (m := 2 ^ 8); [lia|].
    apply Z.pow_le_mono_r; lia.
Qed.

Lemma hash_encode_any l :
  (length l <= 28)%nat -> 0 <= hash (encode l) < hashSize.
Proof.
  intros Hl. apply hash_range. pose proof (encode_bound l) as [H0 H1].
  split; [exact H0|]. eapply Z.lt_le_trans; [exact H1|].
  apply Z.pow_le_mono_r; unfold len; lia.
Qed.

Lemma calls_times (k : Z) ks : calls k ks = times k ks.
Proof. reflexivity. Qed.

(** Equal windows have equal keys, so a key is counted at least as often as
    any window it belongs to. *)
Lemma times_map {A B : Type} `{EqDecision A} `{EqDecision B} (f : A -> B) a (l : list A) :
  times a l <= times (f a) (map f l).
Proof.
  induction l as [|x l IH]; [reflexivity|].
  cbn [map]. rewrite !times_cons.
  destruct (decide (x = a)) as [->|Hne].
  - rewrite decide_True by reflexivity. lia.
  - destruct (decide (f x = f a)); lia.
Qed.

Lemma occurrences_times dna w :
  occurrences w dna = times w (windows dna (length w)).
Proof. symmetry. apply windows_occurrences. Qed.

(** For windows of up to 28 bytes no key reaches [2^62], so the counting
    pass of round 4 cannot panic, whatever the bytes. *)
Lemma count_get_times dna w :
  len dna < 2 ^ 63 - 1 -> (length w <= 28)%nat ->
  exists counts,
    count dna (len w) = Ok counts /\
    get counts (encode w) = Ok (times (encode w) (naive_keys dna (length w))).
Proof.
  intros Hlen HL.
  assert (Forall (fun k => 0 <= hash k < hashSize) (naive_keys dna (length w))) as Hkeys.
  { unfold naive_keys. rewrite Forall_map. apply windows_all. intros i Hi.
    apply hash_encode_any. now rewrite window_length. }
  destruct (inc_all_total _ zero_hashCounter Hkeys) as [counts Hc].
  exists counts. unfold len at 1.
  rewrite count_inc_all by (unfold len in *; lia).
  split; [exact Hc|].
  rewrite (get_inc_all _ _ _ Hc (hash_encode_any w HL)), calls_int; [reflexivity|].
  unfold naive_keys, len in *. rewrite length_map, windows_length. lia.
Qed.

Lemma windows_Replace s L :
  windows (toNum.Replace s) L = map toNum.Replace (windows s L).
Proof.
  unfold windows, window, toNum.Replace. rewrite length_map, map_map.
  apply map_ext. intros i.
  now rewrite skipn_map, firstn_map.
Qed.

(** [main] of round 4 on any input: the number of windows of the buffer
    that have the key of the sequence. *)
Lemma main_times stdin_lines :
  len (concat stdin_lines) < 2 ^ 63 - 1 ->
  main stdin_lines =
  Ok (times (encode (toNum.Replace sequence))
            (naive_keys (read stdin_lines) (length sequence))).
Proof.
  intros Hlen. unfold main. cbv zeta.
  destruct (count_get_times (read stdin_lines) (toNum.Replace sequence))
    as (counts & Hc & Hg).
  - rewrite read_Replace. unfold len in *. now rewrite Replace_length.
  - vm_compute. lia.
  - replace (len (toNum.Replace sequence)) with (len sequence) in Hc
      by (unfold len; now rewrite Replace_length).
    rewrite Replace_length in Hg.
    rewrite Hc. cbv [mbind result_bind]. exact Hg.
Qed.

Lemma round1_main_fold stdin_lines :
  len (concat stdin_lines) < 2 ^ 63 - 1 ->
  Round1.main stdin_lines = Ok (occurrences sequence (concat stdin_lines)).
Proof.
  intros Hlen. unfold Round1.main. cbv zeta. rewrite round1_read_concat.
  unfold len at 1.
  rewrite round1_count_fold by (assumption || (vm_compute; reflexivity)).
  cbv [mbind result_bind mret result_ret]. f_equal.
  rewrite fold_map_incr_empty. now apply times_windows.
Qed.

Lemma round3_main_times stdin_lines :
  len (concat stdin_lines) < 2 ^ 63 - 1 ->
  Round3.main stdin_lines =
  Ok (times (encode (toNum.Replace sequence))
            (naive_keys (read stdin_lines) (length sequence))).
Proof.
  intros Hlen. unfold Round3.main. cbv zeta. unfold len at 1.
  rewrite round3_count_fold.
  - cbv [mbind result_bind mret result_ret]. f_equal.
    destruct (fold_ptr_map_incr (naive_keys (read stdin_lines) (length sequence))
                (∅, []) ptr_map_inv_empty) as [_ Hview].
    rewrite ptr_map_get_view, Hview. unfold ptr_map_view. cbn [fst snd].
    rewrite fmap_empty, fold_map_incr_empty.
    apply int_wrap_id. pose proof (times_bounds (encode (toNum.Replace sequence))
      (naive_keys (read stdin_lines) (length sequence))) as Hb.
    assert (length (read stdin_lines) = length (concat stdin_lines)) as Hr
        by (rewrite read_Replace; apply Replace_length).
    unfold naive_keys, len in *.
    rewrite length_map, windows_length, Hr in Hb.
    int_range.
  - rewrite read_Replace. unfold len in *. now rewrite Replace_length.
  - vm_compute. reflexivity.
Qed.

End AnyBytes.

(** * Further results *)

(** ** The hash counter *)

Lemma hash_in_range_uint64 key :
  is_uint64 key ->
  (0 <= hash key < hashSize <-> key < 2 ^ 63 \/ key mod hashSize = 0).
Proof.
  unfold is_uint64. intros [H0 H1].
  destruct (Z.lt_ge_cases key (2 ^ 63)) as [Hlow|Hhigh].
  - split; [now left | intros _; apply hash_range; lia].
  - split.
    + intros [Hh _]. right.
      destruct (Z.eq_dec (key mod hashSize) 0) as [E|E]; [exact E|].
      pose proof (hash_top_bit_negative key (conj Hhigh H1) E). lia.
    + intros [Hlow|Hz]; [lia|].
      rewrite hash_top_bit by lia.
      replace ((2 ^ 64 - key) mod hashSize) with 0; [rewrite hashSize_pow; lia|].
      symmetry. apply Z.mod_divide; [discriminate|].
      apply Z.mod_divide in Hz; [|discriminate]. destruct Hz as [q Hq].
      exists (2 ^ 46 - q). rewrite hashSize_pow in *. lia.
Qed.

(** X8: on a [uint64] key the bucket index lies inside the array exactly
    when the key is below [2^63] or its low 18 bits are zero. *)
Theorem hash_in_range_iff key :
  is_uint64 key ->
  (0 <= hash key < hashSize <-> key < 2 ^ 63 \/ key mod hashSize = 0).
Proof. apply hash_in_range_uint64. Qed.

Lemma hash_in_range_iff_witness :
  (0 <= hash (2 ^ 63 + 262144) < hashSize <->
   2 ^ 63 + 262144 < 2 ^ 63 \/ (2 ^ 63 + 262144) mod hashSize = 0).
Proof. apply hash_in_range_iff. unfold is_uint64. lia. Defined.

(** X21: on every table, [inc] and [get] return for the same [uint64]
    keys, those below [2^63] and those whose low 18 bits are zero; on every
    other key both panic with the index out of range, and nothing is
    written. *)
Theorem inc_get_return_iff hc key :
  is_uint64 key ->
  ((exists hc', inc hc key = Ok hc') <-> key < 2 ^ 63 \/ key mod hashSize = 0) /\
  ((exists v, get hc key = Ok v) <-> key < 2 ^ 63 \/ key mod hashSize = 0) /\
  (~ (key < 2 ^ 63 \/ key mod hashSize = 0) ->
   inc hc key = Panic (IndexOutOfRange (hash key)) /\
   get hc key = Panic (IndexOutOfRange (hash key))).
Proof.
  intros Hk. pose proof (hash_in_range_uint64 key Hk) as Hr.
  split; [|split].
  - rewrite <- Hr. split.
    + intros [hc' Hinc]. now apply inc_Ok in Hinc as [? _].
    + intros H. rewrite inc_in_range by exact H. eauto.
  - rewrite <- Hr. split.
    + intros [v Hget]. destruct (decide (0 <= hash key < hashSize)) as [H|H]; [exact H|].
      rewrite get_out_of_range in Hget by exact H. discriminate.
    + intros H. rewrite get_in_range by exact H. eauto.
  - rewrite <- Hr. intros H.
    split; [now apply inc_out_of_range | now apply get_out_of_range].
Qed.

Lemma inc_get_return_iff_witness :
  ((exists hc', inc zero_hashCounter (2 ^ 63 + 1) = Ok hc') <->
   2 ^ 63 + 1 < 2 ^ 63 \/ (2 ^ 63 + 1) mod hashSize = 0) /\
  inc zero_hashCounter (2 ^ 63 + 1) = Panic (IndexOutOfRange (-262143)).
Proof.
  destruct (inc_get_return_iff zero_hashCounter (2 ^ 63 + 1)) as (H1 & _ & _);
    [unfold is_uint64; lia|].
  split; [exact H1 | reflexivity].
Defined.

(** X6: after a call [inc(k)] that returns, [get(k)] returns one more than
    before (as an [int]), and [get] of every other key returns what it did
    before, or panics as it did before.  This holds on every table, also one
    that no sequence of [inc] calls builds. *)
Theorem get_after_inc hc k hc' :
  inc hc k = Ok hc' ->
  (exists v, get hc k = Ok v /\ get hc' k = Ok (int_wrap (v + 1))) /\
  (forall k', k' <> k -> get hc' k' = get hc k').
Proof.
  intros [Hr ->]%inc_Ok. split.
  - exists (get_loop (bucket hc (hash k)) k).
    rewrite !get_in_range by exact Hr. split; [reflexivity|].
    rewrite bucket_store, decide_True, get_loop_inc_chain, decide_True by reflexivity.
    reflexivity.
  - intros k' Hne. destruct (decide (0 <= hash k' < hashSize)) as [Hr'|Hr'].
    + rewrite !get_in_range by exact Hr'. f_equal. rewrite bucket_store.
      destruct (decide (hash k = hash k')) as [E|E]; [|reflexivity].
      rewrite get_loop_inc_chain, decide_False, E by congruence. reflexivity.
    + now rewrite !get_out_of_range.
Qed.

Lemma get_after_inc_witness :
  exists hc hc',
    inc_all [1; 262145] zero_hashCounter = Ok hc /\
    inc hc 262145 = Ok hc' /\
    get hc 262145 = Ok 1 /\ get hc' 262145 = Ok 2 /\
    (forall k', k' <> 262145 -> get hc' k' = get hc k').
Proof.
  eexists. eexists. split; [reflexivity|]. split; [reflexivity|].
  split; [reflexivity|]. split; [reflexivity|].
  eapply get_after_inc. reflexivity.
Defined.

(** X7: the counts do not depend on the order of the [inc] calls: if a
    sequence of calls returns, every reordering of it returns, and [get]
    answers the same on both tables for every key (the chains may be in
    another order). *)
Theorem counts_independent_of_order ks1 ks2 hc1 :
  ks1 ≡ₚ ks2 ->
  inc_all ks1 zero_hashCounter = Ok hc1 ->
  exists hc2,
    inc_all ks2 zero_hashCounter = Ok hc2 /\
    forall k, get hc2 k = get hc1 k.
Proof.
  intros Hp H1.
  pose proof (inc_all_Ok_in_range _ _ _ H1) as Hr. rewrite Hp in Hr.
  destruct (inc_all_total ks2 zero_hashCounter Hr) as [hc2 H2].
  exists hc2. split; [exact H2|]. intros k.
  destruct (decide (0 <= hash k < hashSize)) as [Hk|Hk].
  - rewrite (get_inc_all _ _ _ H1 Hk), (get_inc_all _ _ _ H2 Hk).
    do 2 f_equal. symmetry. exact (times_Permutation k _ _ Hp).
  - now rewrite !get_out_of_range.
Qed.

Lemma counts_independent_of_order_witness :
  exists hc1 hc2,
    inc_all [1; 262145; 1] zero_hashCounter = Ok hc1 /\
    inc_all [262145; 1; 1] zero_hashCounter = Ok hc2 /\
    hc1 <> hc2 /\
    forall k, get hc2 k = get hc1 k.
Proof.
  destruct (counts_independent_of_order [1; 262145; 1] [262145; 1; 1] _
              ltac:(apply perm_swap) eq_refl)
    as (hc2 & H2 & Hget).
  eexists. exists hc2. split; [reflexivity|].
  split; [exact H2|]. split; [|exact Hget].
  injection H2 as <-. intros E.
  apply (f_equal (fun hc => chain (bucket hc 1))) in E.
  vm_compute in E. discriminate E.
Defined.

Lemma get_never_counted_witness :
  exists hc,
    inc_all [1; 262145] zero_hashCounter = Ok hc /\ get hc 524289 = Ok 0.
Proof.
  eexists. split; [reflexivity|].
  apply (get_never_counted [1; 262145]);
    [reflexivity | | vm_compute; split; [discriminate | reflexivity]].
  rewrite !not_elem_of_cons. repeat split; try discriminate. apply not_elem_of_nil.
Defined.

(** ** The scanner of round 4 *)

Lemma count_correct_witness :
  exists counts,
    count (toNum.Replace (bytes "GATTACAGATTACA")) 4 = Ok counts /\
    get counts (encode (toNum.Replace (bytes "ATTA"))) = Ok 2.
Proof.
  apply (count_correct (toNum.Replace (bytes "GATTACAGATTACA"))
           (toNum.Replace (bytes "ATTA"))).
  - compute_done.
  - compute_done.
  - vm_compute. reflexivity.
  - vm_compute. lia.
Defined.


Lemma count_short_buffer_witness :
  count (bytes "not much") 18 = Ok zero_hashCounter.
Proof.
  apply (count_short_buffer (bytes "not much") 18).
  - vm_compute. lia.
  - vm_compute. reflexivity.
Defined.

(** X22: for a window length that is not negative, the scanner of every
    round visits the windows of the buffer from left to right, each one
    once, and does nothing else: round 4 makes one [inc] call per window
    with the key of the window, rounds 1 to 3 one map update per window, and
    no slice expression panics. *)
Theorem count_visits_windows dna L :
  len dna < 2 ^ 63 - 1 -> Z.of_nat L < 2 ^ 63 ->
  length (windows dna L) = (S (length dna) - L)%nat /\
  count dna (Z.of_nat L) = inc_all (naive_keys dna L) zero_hashCounter /\
  Round1.count dna (Z.of_nat L) = Ok (fold_left map_incr (windows dna L) ∅) /\
  Round2.count dna (Z.of_nat L) =
    Ok (fold_left ptr_map_incr (windows dna L) (∅, [])) /\
  Round3.count dna (Z.of_nat L) =
    Ok (fold_left ptr_map_incr (naive_keys dna L) (∅, [])).
Proof.
  intros Hlen HL. split; [apply windows_length|].
  split; [now apply count_inc_all|]. split; [now apply round1_count_fold|].
  split; [now apply round2_count_fold | now apply round3_count_fold].
Qed.

Lemma count_visits_windows_witness :
  windows (bytes "ACGT") 3 = [bytes "ACG"; bytes "CGT"] /\
  count (bytes "ACGT") 3 = inc_all (naive_keys (bytes "ACGT") 3) zero_hashCounter /\
  Round1.count (bytes "ACGT") 3 =
    Ok (fold_left map_incr (windows (bytes "ACGT") 3) ∅).
Proof.
  destruct (count_visits_windows (bytes "ACGT") 3) as (_ & H4 & H1 & _);
    [vm_compute; reflexivity | vm_compute; reflexivity |].
  split; [reflexivity|]. split; [exact H4 | exact H1].
Defined.

(** X3: for windows of up to 28 bytes the counting pass of round 4 returns
    a table whatever the bytes of the buffer are, and [get] of the key of
    [w] is the number of windows that have this key.  That is never less
    than the brute-force count of [w]: a window is never missed, but with
    bytes outside the codes different windows can share a key. *)
Theorem count_any_bytes dna w :
  len dna < 2 ^ 63 - 1 -> (length w <= 28)%nat ->
  exists counts,
    count dna (len w) = Ok counts /\
    get counts (encode w) = Ok (times (encode w) (naive_keys dna (length w))) /\
    occurrences w dna <= times (encode w) (naive_keys dna (length w)).
Proof.
  intros Hlen HL. destruct (count_get_times dna w Hlen HL) as (counts & Hc & Hg).
  exists counts. split; [exact Hc|]. split; [exact Hg|].
  rewrite occurrences_times. apply times_map.
Qed.

(** The windows [0, 4] and [1, 0] are different and share the key 4. *)
Lemma count_any_bytes_witness :
  exists counts,
    count [x00; x04; x01; x00] 2 = Ok counts /\
    get counts (encode [x00; x04]) = Ok 2 /\
    occurrences [x00; x04] [x00; x04; x01; x00] = 1.
Proof.
  destruct (count_any_bytes [x00; x04; x01; x00] [x00; x04]) as (counts & Hc & Hg & _).
  - vm_compute. reflexivity.
  - vm_compute. lia.
  - exists counts. split; [exact Hc|]. split; [exact Hg | reflexivity].
Defined.

Lemma loop_indices_positive bound :
  0 < bound -> exists rest, loop_indices bound = 0 :: rest.
Proof.
  intros H. unfold loop_indices.
  destruct (Z.to_nat bound) as [|n] eqn:E; [lia|].
  now exists (map Z.of_nat (seq 1 n)).
Qed.

(** X4: with a negative window length the loop of [count] is entered and
    the first slice expression panics, in every round, also on the empty
    buffer.  (The length must not be so far below zero that
    [len(dna)-length+1] overflows.) *)
Theorem count_negative_length_panics dna length :
  is_int length -> length < 0 -> len dna - length < 2 ^ 63 - 1 ->
  count dna length = Panic (SliceBoundsOutOfRange 0 length) /\
  Round1.count dna length = Panic (SliceBoundsOutOfRange 0 length) /\
  Round2.count dna length = Panic (SliceBoundsOutOfRange 0 length) /\
  Round3.count dna length = Panic (SliceBoundsOutOfRange 0 length).
Proof.
  intros Hint Hneg Hlen. pose proof (len_nonneg dna) as H0.
  assert (int_wrap (int_wrap (len dna - length) + 1) = len dna - length + 1) as Hb.
  { rewrite (int_wrap_id (_ - _)) by int_range. apply int_wrap_id. int_range. }
  destruct (loop_indices_positive (len dna - length + 1)) as [rest Hrest]; [lia|].
  assert (slice dna 0 (int_wrap (0 + length)) = Panic (SliceBoundsOutOfRange 0 length)) as Hs.
  { rewrite Z.add_0_l, int_wrap_id by exact Hint. unfold slice.
    destruct (Z.leb_spec 0 length); [lia | reflexivity]. }
  unfold count, Round1.count, Round2.count, Round3.count.
  rewrite Hb, Hrest. cbn [count_loop for_each].
  unfold count_body, Round1.count_body, Round2.count_body, Round3.count_body.
  rewrite Hs. repeat split; reflexivity.
Qed.

Lemma count_negative_length_panics_witness :
  count [] (-1) = Panic (SliceBoundsOutOfRange 0 (-1)) /\
  Round1.count (bytes "ACGT") (-3) = Panic (SliceBoundsOutOfRange 0 (-3)).
Proof.
  split.
  - apply (count_negative_length_panics [] (-1)); [int_range | lia | vm_compute; reflexivity].
  - apply (count_negative_length_panics (bytes "ACGT") (-3));
      [int_range | lia | vm_compute; reflexivity].
Defined.

(** ** Reading and packing *)


(** X11: on strings over the alphabet the replacer loses nothing: it
    returns codes only, and two such strings with the same codes are the
    same string. *)
Theorem Replace_one_to_one s1 s2 :
  Forall (fun b => alphabet b = true) s1 ->
  Forall (fun b => alphabet b = true) s2 ->
  Forall is_code (toNum.Replace s1) /\
  (toNum.Replace s1 = toNum.Replace s2 -> s1 = s2).
Proof.
  intros H1 H2. split; [now apply Replace_codes|].
  revert s2 H2. induction H1 as [|a s1 Ha _ IH]; intros s2 H2 E;
    destruct H2 as [|b s2 Hb H2]; try discriminate E; [reflexivity|].
  injection E as E1 E2. f_equal; [now apply toNum_byte_inj | now apply IH].
Qed.

Lemma Replace_one_to_one_witness :
  Forall is_code (toNum.Replace (bytes "GATTACA")) /\
  (toNum.Replace (bytes "GATTACA") = toNum.Replace (bytes "GATTACA") ->
   bytes "GATTACA" = bytes "GATTACA").
Proof. apply Replace_one_to_one; compute_done. Defined.

(** X12: letters [A] in front of a string do not change its key, so keys
    tell strings apart only among strings of one length. *)
Theorem encode_ignores_leading_A n s :
  encode (toNum.Replace (repeat "A"%byte n ++ s)) = encode (toNum.Replace s).
Proof.
  induction n as [|n IH]; [reflexivity|].
  rewrite <- IH. reflexivity.
Qed.

(** X13: the key of a sequence followed by codes is the key of the sequence
    shifted left by two bits per code, plus the key of the codes, in 64
    bits. *)
Theorem encode_app_codes l1 l2 :
  Forall is_code l2 ->
  encode (l1 ++ l2) = (encode l1 * 4 ^ len l2 + encode l2) mod 2 ^ 64.
Proof.
  induction l2 as [|c l2 IH] using rev_ind; intros H2.
  - rewrite app_nil_r. change (len []) with 0. change (encode []) with 0.
    rewrite Z.pow_0_r, Z.mul_1_r, Z.add_0_r. symmetry. apply Z.mod_small.
    apply encode_is_uint64.
  - apply Forall_app in H2 as [H2 Hc]. apply Forall_inv in Hc.
    unfold is_code in Hc. pose proof (uint64_of_byte_range c) as Hb.
    rewrite app_assoc, !encode_snoc, IH by exact H2.
    rewrite !shl64_lor_code by lia.
    rewrite len_app. change (len [c]) with 1.
    rewrite Z.pow_add_r by (pose proof (len_nonneg l2); lia).
    rewrite Z.mul_mod_idemp_r by lia.
    assert (forall x, (4 * x) mod 2 ^ 64 + uint64_of_byte c =
                      (4 * x + uint64_of_byte c) mod 2 ^ 64) as Hlow.
    { intros x. rewrite <- (Z.mod_small ((4 * x) mod 2 ^ 64 + uint64_of_byte c) (2 ^ 64)).
      - now rewrite Z.add_mod_idemp_l by lia.
      - change (2 ^ 64) with (4 * 2 ^ 62). rewrite Z.mul_mod_distr_l by lia.
        pose proof (Z.mod_pos_bound x (2 ^ 62)). lia. }
    rewrite !Hlow. rewrite Z.add_mod_idemp_r by lia. f_equal. lia.
Qed.

Lemma encode_app_codes_witness :
  encode (bytes "N" ++ toNum.Replace (bytes "GT")) =
  (encode (bytes "N") * 4 ^ 2 + encode (toNum.Replace (bytes "GT"))) mod 2 ^ 64.
Proof. apply (encode_app_codes (bytes "N") (toNum.Replace (bytes "GT"))). compute_done. Defined.

(** ** Rounds 1 to 3 *)

(** X14: round 1 counts right on every buffer, whatever its bytes: [count]
    returns a map in which the window [w] has the brute-force count of [w]
    (0 when the map does not have it). *)
Theorem round1_count_occurrences dna w :
  len dna < 2 ^ 63 - 1 -> len w < 2 ^ 63 ->
  exists counts,
    Round1.count dna (len w) = Ok counts /\
    default 0 (counts !! w) = occurrences w dna.
Proof.
  intros Hlen Hw. eexists. unfold len at 1.
  split; [now apply round1_count_fold|].
  rewrite fold_map_incr_empty. now apply times_windows.
Qed.

Lemma round1_count_occurrences_witness :
  exists counts,
    Round1.count (bytes "to be or not to be") 2 = Ok counts /\
    default 0 (counts !! bytes "be") = 2.
Proof.
  apply (round1_count_occurrences (bytes "to be or not to be") (bytes "be"));
    vm_compute; reflexivity.
Defined.



Lemma round2_count_view dna length :
  match Round2.count dna length with
  | Ok st => ptr_map_inv st /\ Round1.count dna length = Ok (ptr_map_view st)
  | Panic p => Round1.count dna length = Panic p
  end.
Proof.
  unfold Round2.count, Round1.count.
  pose proof (round2_simulates_round1 dna length
                (loop_indices (int_wrap (int_wrap (len dna - length) + 1)))
                (∅, []) ptr_map_inv_empty) as Hsim.
  unfold ptr_map_view at 1 3 in Hsim. cbn [fst snd] in Hsim.
  rewrite fmap_empty in Hsim. exact Hsim.
Qed.

(** X16: the pointers that round 2 puts into the map change nothing that
    [main] prints: on every input round 2 returns what round 1 returns, or
    panics as round 1 does. *)
Theorem round2_main_round1 stdin_lines :
  Round2.main stdin_lines = Round1.main stdin_lines.
Proof.
  unfold Round2.main, Round1.main. cbv zeta.
  change (Round2.read stdin_lines) with (Round1.read stdin_lines).
  pose proof (round2_count_view (Round1.read stdin_lines) (len sequence)) as Hsim.
  destruct (Round2.count (Round1.read stdin_lines) (len sequence)) as [st|p].
  - destruct Hsim as [_ ->]. cbv [mbind result_bind mret result_ret].
    now rewrite ptr_map_get_view.
  - now rewrite Hsim.
Qed.

(** X17: when [count] of round 2 returns, every pointer of its map points
    to an allocated cell, no two keys share a cell, there is one cell per
    key, and the values behind the pointers are the map that [count] of
    round 1 returns; when it panics, [count] of round 1 panics in the same
    way. *)
Theorem round2_count_cells dna length :
  match Round2.count dna length with
  | Ok (counts, cells) =>
      Round1.count dna length = Ok (deref cells <$> counts) /\
      (forall key p, counts !! key = Some p -> (p < List.length cells)%nat) /\
      (forall key1 key2 p,
         counts !! key1 = Some p -> counts !! key2 = Some p -> key1 = key2) /\
      List.length cells = size counts
  | Panic p => Round1.count dna length = Panic p
  end.
Proof.
  pose proof (round2_count_view dna length) as Hsim.
  destruct (Round2.count dna length) as [[counts cells]|p]; [|exact Hsim].
  destruct Hsim as [(H1 & H2 & H3) Hcount].
  split; [exact Hcount|]. split; [exact H1|]. split; [exact H2 | exact H3].
Qed.

(** X18: round 3 counts right on codes for every window length up to 32,
    the length 32 included: [count] returns a map, and the cell of the key
    of [w] holds the brute-force count of [w] (the count is 0 when the map
    does not have the key). *)
Theorem round3_count_occurrences dna w :
  Forall is_code dna -> Forall is_code w ->
  len dna < 2 ^ 63 - 1 -> (length w <= 32)%nat ->
  exists counts,
    Round3.count dna (len w) = Ok counts /\
    ptr_map_get counts (encode w) = occurrences w dna.
Proof.
  intros Hdna Hw Hlen HL. eexists. unfold len at 1.
  split; [apply round3_count_fold; unfold len in *; lia|].
  destruct (fold_ptr_map_incr (naive_keys dna (length w)) (∅, []) ptr_map_inv_empty)
    as [_ Hview].
  rewrite ptr_map_get_view, Hview. unfold ptr_map_view. cbn [fst snd].
  rewrite fmap_empty, fold_map_incr_empty.
  unfold naive_keys. rewrite <- calls_times, calls_encode; try assumption.
  - rewrite windows_occurrences. apply int_wrap_id.
    pose proof (windows_occurrences w dna) as E.
    pose proof (length_filter (fun w' => w' = w) (windows dna (length w))) as Hle.
    rewrite windows_length in Hle. int_range.
  - apply windows_all. intros i Hi. split; auto with kmer.
Qed.

(** Where round 4 panics, round 3 counts. *)
Lemma round3_count_occurrences_witness :
  let w := toNum.Replace (bytes "TTTTTTTTTTTTTTTTTTTTTTTTTTTTTTTT") in
  exists counts,
    Round3.count (w ++ w) 32 = Ok counts /\
    ptr_map_get counts (encode w) = 33.
Proof.
  cbv zeta.
  apply (round3_count_occurrences
           (toNum.Replace (bytes "TTTTTTTTTTTTTTTTTTTTTTTTTTTTTTTT") ++
            toNum.Replace (bytes "TTTTTTTTTTTTTTTTTTTTTTTTTTTTTTTT"))
           (toNum.Replace (bytes "TTTTTTTTTTTTTTTTTTTTTTTTTTTTTTTT"))).
  - compute_done.
  - compute_done.
  - vm_compute. reflexivity.
  - vm_compute. lia.
Defined.

(** X19: the hash counter of round 4 changes nothing that [main] prints:
    on every input, whatever its bytes, [main] of round 4 returns what
    [main] of round 3 returns, the number of windows of the buffer that have
    the key of the sequence. *)
Theorem round3_main_round4 stdin_lines :
  len (concat stdin_lines) < 2 ^ 63 - 1 ->
  main stdin_lines = Round3.main stdin_lines /\
  main stdin_lines =
    Ok (times (encode (toNum.Replace sequence))
              (naive_keys (read stdin_lines) (length sequence))).
Proof.
  intros Hlen. rewrite main_times, round3_main_times by exact Hlen. now split.
Qed.

Lemma round3_main_round4_witness :
  main [bytes "GGTATTTTAATTTATAGN"; bytes "GTATTTTAATTTATAGT"] =
  Round3.main [bytes "GGTATTTTAATTTATAGN"; bytes "GTATTTTAATTTATAGT"].
Proof.
  apply (round3_main_round4 [bytes "GGTATTTTAATTTATAGN"; bytes "GTATTTTAATTTATAGT"]).
  vm_compute. reflexivity.
Defined.

(** X20: on every input [main] of round 4 prints at least what [main] of
    round 1 prints, and the same number when the input is over the alphabet:
    packing the windows into keys never loses an occurrence, and it adds
    none on input over the alphabet. *)
Theorem main_at_least_round1 stdin_lines :
  len (concat stdin_lines) < 2 ^ 63 - 1 ->
  exists n1 n4,
    Round1.main stdin_lines = Ok n1 /\
    main stdin_lines = Ok n4 /\
    n1 <= n4 /\
    (Forall (Forall (fun b => alphabet b = true)) stdin_lines -> n1 = n4).
Proof.
  intros Hlen. eexists. eexists.
  split; [now apply round1_main_fold|]. split; [now apply main_times|]. split.
  - unfold naive_keys. rewrite read_Replace, windows_Replace, occurrences_times.
    etransitivity; [apply (times_map toNum.Replace)|]. apply (times_map encode).
  - intros Halpha. pose proof (main_occurrences stdin_lines Halpha Hlen) as E.
    rewrite main_times in E by exact Hlen. now injection E as <-.
Qed.

(** A line of codes, not letters: round 1 finds no sequence in it, round 4
    finds one. *)
Lemma main_at_least_round1_witness :
  exists n1 n4,
    Round1.main [toNum.Replace sequence] = Ok n1 /\
    main [toNum.Replace sequence] = Ok n4 /\
    n1 <= n4 /\ n1 = 0 /\ n4 = 1.
Proof.
  destruct (main_at_least_round1 [toNum.Replace sequence])
    as (n1 & n4 & H1 & H4 & Hle & _); [vm_compute; reflexivity|].
  exists n1, n4. split; [exact H1|]. split; [exact H4|]. split; [exact Hle|].
  vm_compute in H1. vm_compute in H4. split; congruence.
Defined.
